(** * bun-sqlite-generate: the interface generator of [src/generator.ts]

    A shallow embedding of [InterfaceGenerator] (the schema-to-code
    translation) and of the CRUD functions whose text it emits, with the
    properties of the specification stated over them.

    Conventions of the embedding.
    - JavaScript strings are [string]s of 8-bit characters; case conversion
      acts on the ASCII letters and leaves every other character alone, as
      the host language does on names written in ASCII.
    - The catalogue queries ([sqlite_master], [PRAGMA table_info]) belong to
      the storage engine; their answers are the input of the generator.  The
      rows of a table come in column order, and a real catalogue has no
      negative primary-key ordinal.
    - The emitted unit is kept as the sequence of pieces that the source
      appends with [interfaceContent += ...]; the unit text is their
      concatenation.
    - A generated function is read off the template that emits it, with the
      table name and the key names standing for identifiers that do not
      clash with those of the template; it is modelled by the statement it
      prepares and the values it binds.  The partial record is a plain
      object: a property it does not hold itself is looked up in
      [Object.prototype].
    - [main] and [generateFiles] run against a host that answers for the
      file system, for the loading of a schema and for the catalogue query
      of a table; a run is the sequence of its events (console lines, calls
      that make a directory, files written, exit). *)

From Stdlib Require Import ZArith Ascii String List Sorting.Sorted Permutation.
From stdpp Require Import base gmap list strings.

Local Open Scope Z_scope.

(* ===================================================================== *)
(** ** Characters and strings of the host language *)
(* ===================================================================== *)

Module Js.

(** The characters that cannot be written inside a string literal here. *)
Definition dquote : string := String (ascii_of_nat 34) EmptyString.
Definition nl : string := String (ascii_of_nat 10) EmptyString.

Definition is_lower (c : ascii) : bool :=
  (97 <=? nat_of_ascii c)%nat && (nat_of_ascii c <=? 122)%nat.
Definition is_upper (c : ascii) : bool :=
  (65 <=? nat_of_ascii c)%nat && (nat_of_ascii c <=? 90)%nat.

Definition upper_char (c : ascii) : ascii :=
  if is_lower c then ascii_of_nat (nat_of_ascii c - 32) else c.
Definition lower_char (c : ascii) : ascii :=
  if is_upper c then ascii_of_nat (nat_of_ascii c + 32) else c.

Fixpoint map_chars (f : ascii -> ascii) (s : string) : string :=
  match s with
  | EmptyString => EmptyString
  | String c s' => String (f c) (map_chars f s')
  end.

(** [s.toUpperCase()], [s.toLowerCase()] *)
Definition toUpperCase : string -> string := map_chars upper_char.
Definition toLowerCase : string -> string := map_chars lower_char.

(** [s.charAt(0)]: the first character as a string, empty on the empty
    string. *)
Definition charAt0 (s : string) : string :=
  match s with
  | EmptyString => EmptyString
  | String c _ => String c EmptyString
  end.

(** [s.slice(1)] *)
Definition slice1 (s : string) : string :=
  match s with
  | EmptyString => EmptyString
  | String _ s' => s'
  end.

(** [s.slice(n)] for a non-negative [n]. *)
Fixpoint sliceFrom (n : nat) (s : string) : string :=
  match n, s with
  | O, _ => s
  | S _, EmptyString => EmptyString
  | S n', String _ s' => sliceFrom n' s'
  end.

(** A string of ASCII characters. *)
Fixpoint isAscii (s : string) : bool :=
  match s with
  | EmptyString => true
  | String c s' => (nat_of_ascii c <? 128)%nat && isAscii s'
  end.

(** How often a character occurs in a string. *)
Fixpoint count (c : ascii) (s : string) : nat :=
  match s with
  | EmptyString => O
  | String d s' => ((if Ascii.eqb d c then 1 else 0) + count c s')%nat
  end.

(** [s.split(sep)] for a one-character separator: never empty, the
    empty string splits into one empty fragment. *)
Fixpoint split (sep : ascii) (s : string) : list string :=
  match s with
  | EmptyString => [EmptyString]
  | String c s' =>
      if Ascii.eqb c sep then EmptyString :: split sep s'
      else match split sep s' with
           | w :: ws => String c w :: ws
           | [] => [String c EmptyString]
           end
  end.

(** [a.join(sep)] on an array of strings. *)
Definition join (sep : string) (l : list string) : string :=
  String.concat sep l.

(** [s.startsWith(p)], to look at the head of an emitted piece. *)
Definition startsWith (p s : string) : bool := String.prefix p s.

(** A string without a line break. *)
Fixpoint singleLine (s : string) : bool :=
  match s with
  | EmptyString => true
  | String c s' => negb (Ascii.eqb c "010") && singleLine s'
  end.

(** [text.split('\n')]: the lines of a text. *)
Definition lines (text : string) : list string := split "010" text.

(** [JSON.stringify] on a string: the quoted form.  Control characters
    use the short escapes where JSON has them and [\u00XX] otherwise. *)
Definition hex_digit (n : nat) : ascii :=
  if (n <? 10)%nat then ascii_of_nat (48 + n) else ascii_of_nat (87 + n).

Definition json_escape (c : ascii) : string :=
  let n := nat_of_ascii c in
  if (n =? 34)%nat then String "\" dquote
  else if (n =? 92)%nat then "\\"
  else if (n =? 8)%nat then "\b"
  else if (n =? 9)%nat then "\t"
  else if (n =? 10)%nat then "\n"
  else if (n =? 12)%nat then "\f"
  else if (n =? 13)%nat then "\r"
  else if (n <? 32)%nat then
    "\u00" +:+ String (hex_digit (n / 16)) (String (hex_digit (n mod 16)) EmptyString)
  else String c EmptyString.

Fixpoint json_chars (s : string) : string :=
  match s with
  | EmptyString => EmptyString
  | String c s' => json_escape c +:+ json_chars s'
  end.

Definition json_string (s : string) : string :=
  dquote +:+ json_chars s +:+ dquote.

(** [JSON.stringify] on an array of strings: no space after the commas. *)
Definition json_string_array (l : list string) : string :=
  "[" +:+ join "," (map json_string l) +:+ "]".

End Js.

(* ===================================================================== *)
(** ** The catalogue rows *)
(* ===================================================================== *)

(** [interface ColumnInfo]: one row of [PRAGMA table_info]. *)
Record ColumnInfo := mkColumn {
  cid : Z;
  name : string;
  type : string;
  notnull : Z;
  dflt_value : option string;
  pk : Z
}.

(** [interface TableInfo]: one row of the [sqlite_master] query. *)
Record TableInfo := mkTable { tname : string }.

(** What the generator reads through [this.db]: the tables in enumeration
    order, and for the name of each the column rows that
    [PRAGMA table_info(<name>)] answers when the database accepts the
    statement. *)
Record Database := mkDatabase {
  all_tables : list TableInfo;
  table_info : string -> list ColumnInfo
}.

(* ===================================================================== *)
(** ** The two private helpers *)
(* ===================================================================== *)

(** [pascalCase]: split on ['_'], capitalise each fragment, concatenate. *)
Definition capitalize (word : string) : string :=
  Js.toUpperCase (Js.charAt0 word) +:+ Js.toLowerCase (Js.slice1 word).

Definition pascalCase (str : string) : string :=
  Js.join EmptyString (map capitalize (Js.split "_" str)).

(** The literal [typeMap] object, as its list of entries. *)
Definition typeMap : list (string * string) :=
  [ ("INTEGER", "number | bigint");
    ("REAL", "number");
    ("TEXT", "string");
    ("BLOB", "Uint8Array");
    ("BOOLEAN", "number");
    ("TIMESTAMP", "string") ].

(** [typeMap[key]]: [None] stands for [undefined].  The key is always an
    upper-cased string, so no inherited member of the object is hit. *)
Fixpoint typeMap_get (m : list (string * string)) (key : string) : option string :=
  match m with
  | [] => None
  | (k, v) :: m' => if String.eqb k key then Some v else typeMap_get m' key
  end.

(** [sqliteType.split('(')[0].toUpperCase()] *)
Definition baseType (sqliteType : string) : string :=
  Js.toUpperCase (hd EmptyString (Js.split "(" sqliteType)).

(** [typeMap[baseType] || 'any']: an absent entry and an empty string are
    both falsy. *)
Definition mapSqliteTypeToTypescript (sqliteType : string) : string :=
  match typeMap_get typeMap (baseType sqliteType) with
  | Some EmptyString | None => "any"
  | Some t => t
  end.

(* ===================================================================== *)
(** ** [generateInterfaces]: the unit of one table *)
(* ===================================================================== *)

(** [columns.filter(col => col.pk > 0).sort((a, b) => a.pk - b.pk)].
    [Array.prototype.sort] is stable; so is this insertion sort: a row goes
    in front of the first row whose ordinal is not smaller. *)
Fixpoint insert_by_pk (c : ColumnInfo) (l : list ColumnInfo) : list ColumnInfo :=
  match l with
  | [] => [c]
  | d :: l' => if pk c - pk d <=? 0 then c :: d :: l' else d :: insert_by_pk c l'
  end.

Definition sort_by_pk (l : list ColumnInfo) : list ColumnInfo :=
  fold_right insert_by_pk [] l.

Definition primaryKeys (columns : list ColumnInfo) : list ColumnInfo :=
  sort_by_pk (List.filter (fun col => pk col >? 0) columns).

(** Truthiness of a number. *)
Definition truthy (n : Z) : bool := negb (n =? 0).

Section Unit.

(** [table.name] and the rows of [PRAGMA table_info(table.name)]. *)
Variable T : string.
Variable columns : list ColumnInfo.

Let P : string := pascalCase T.
Let nl : string := Js.nl.

Definition columnNames : list string := map name columns.
Definition pkNames : list string := map name (primaryKeys columns).

(** [column.notnull || !!column.pk ? '' : ' | null'] *)
Definition nullSuffix (column : ColumnInfo) : string :=
  if truthy (notnull column) || truthy (pk column) then EmptyString else " | null".

Definition fieldType (column : ColumnInfo) : string :=
  mapSqliteTypeToTypescript (type column) +:+ nullSuffix column.

Definition fieldLine (column : ColumnInfo) : string :=
  "    " +:+ name column +:+ ": " +:+ fieldType column +:+ ";" +:+ nl.

Definition importLine : string :=
  "import { Database } from " +:+ Js.dquote +:+ "bun:sqlite" +:+ Js.dquote +:+ ";" +:+ nl +:+ nl.

Definition interfaceDecl : list string :=
  ["export interface " +:+ P +:+ " {" +:+ nl]
  ++ map fieldLine columns
  ++ ["}" +:+ nl +:+ nl].

Definition insertFunction : list string :=
  [ "export function insert" +:+ P +:+ "(db: Database, " +:+ T +:+ ": Partial<" +:+ P +:+ ">): " +:+ P +:+ " {" +:+ nl;
    "    const columns = " +:+ Js.json_string_array columnNames +:+ ";" +:+ nl;
    "    const insertColumns = columns.filter(col => " +:+ T +:+ "[col as keyof typeof " +:+ T +:+ "] !== undefined);" +:+ nl;
    "    const insertValues = insertColumns.map(col => " +:+ T +:+ "[col as keyof typeof " +:+ T +:+ "]);" +:+ nl;
    "    const placeholders = insertColumns.map(() => '?').join(', ');" +:+ nl;
    "    const sql = `INSERT INTO " +:+ T +:+ " (${insertColumns.join(', ')}) VALUES (${placeholders}) RETURNING *`;" +:+ nl;
    "    const stmt = db.prepare<" +:+ P +:+ ", any[]>(sql);" +:+ nl;
    "    const result = stmt.get(insertValues);" +:+ nl;
    "    return result as " +:+ P +:+ ";" +:+ nl;
    "}" +:+ nl +:+ nl ].

Definition getAllFunction : list string :=
  [ "export function getAll" +:+ P +:+ "(db: Database): " +:+ P +:+ "[] {" +:+ nl;
    "    const stmt = db.prepare<" +:+ P +:+ ", []>('SELECT * FROM " +:+ T +:+ "');" +:+ nl;
    "    return stmt.all() as " +:+ P +:+ "[];" +:+ nl;
    "}" +:+ nl +:+ nl ].

(** [primaryKeys.map(pk => `${pk.name}: ${type}`).join(', ')] *)
Definition pkParam (c : ColumnInfo) : string :=
  name c +:+ ": " +:+ mapSqliteTypeToTypescript (type c).
Definition pkParams : string := Js.join ", " (map pkParam (primaryKeys columns)).

(** [primaryKeys.map(pk => `${pk.name} = ?`).join(' AND ')] *)
Definition pkCondition (c : ColumnInfo) : string := name c +:+ " = ?".
Definition pkWhere : string := Js.join " AND " (map pkCondition (primaryKeys columns)).

(** [primaryKeys.map(pk => pk.name).join(', ')] *)
Definition pkArgs : string := Js.join ", " pkNames.

(** The three keyed functions, given the first key row [primaryKeys[0]]. *)
Definition getFunction (pk0 : ColumnInfo) : list string :=
  [ "export function get" +:+ P +:+ "(db: Database, " +:+ pkParams +:+ "): " +:+ P +:+ " | null {" +:+ nl;
    "    const stmt = db.prepare<" +:+ P +:+ ", (" +:+ mapSqliteTypeToTypescript (type pk0) +:+ ")[]>('SELECT * FROM " +:+ T +:+ " WHERE " +:+ pkWhere +:+ "');" +:+ nl;
    "    return stmt.get(" +:+ pkArgs +:+ ") as " +:+ P +:+ " | null;" +:+ nl;
    "}" +:+ nl +:+ nl ].

Definition updateFunction : list string :=
  [ "export function update" +:+ P +:+ "(db: Database, " +:+ pkParams +:+ ", " +:+ T +:+ ": Partial<" +:+ P +:+ ">): " +:+ P +:+ " | null {" +:+ nl;
    "    const columns = " +:+ Js.json_string_array columnNames +:+ ";" +:+ nl;
    "    const updateColumns = columns.filter(col => " +:+ T +:+ "[col as keyof typeof " +:+ T +:+ "] !== undefined && !" +:+ Js.json_string_array pkNames +:+ ".includes(col));" +:+ nl;
    "    if (updateColumns.length === 0) return get" +:+ P +:+ "(db, " +:+ pkArgs +:+ ");" +:+ nl;
    "    const setClause = updateColumns.map(col => `${col} = ?`).join(', ');" +:+ nl;
    "    const updateValues = updateColumns.map(col => " +:+ T +:+ "[col as keyof typeof " +:+ T +:+ "]);" +:+ nl;
    "    const sql = `UPDATE " +:+ T +:+ " SET ${setClause} WHERE " +:+ pkWhere +:+ " RETURNING *`;" +:+ nl;
    "    const stmt = db.prepare<" +:+ P +:+ ", any[]>(sql);" +:+ nl;
    "    const result = stmt.get([...updateValues, " +:+ pkArgs +:+ "]);" +:+ nl;
    "    return result as " +:+ P +:+ " | null;" +:+ nl;
    "}" +:+ nl +:+ nl ].

Definition deleteFunction (pk0 : ColumnInfo) : list string :=
  [ "export function delete" +:+ P +:+ "(db: Database, " +:+ pkParams +:+ "): void {" +:+ nl;
    "    const stmt = db.prepare<" +:+ P +:+ ", (" +:+ mapSqliteTypeToTypescript (type pk0) +:+ ")[]>('DELETE FROM " +:+ T +:+ " WHERE " +:+ pkWhere +:+ "');" +:+ nl;
    "    stmt.run(" +:+ pkArgs +:+ ");" +:+ nl;
    "}" +:+ nl ].

(** [if (primaryKeys.length > 0) { ... }] *)
Definition keyedFunctions : list string :=
  match primaryKeys columns with
  | [] => []
  | pk0 :: _ => getFunction pk0 ++ updateFunction ++ deleteFunction pk0
  end.

(** The pieces appended to [interfaceContent], in order. *)
Definition unitPieces : list string :=
  [importLine] ++ interfaceDecl ++ insertFunction ++ getAllFunction ++ keyedFunctions.

(** The value of [interfaceContent] when it is stored. *)
Definition interfaceContent : string :=
  fold_left (fun acc piece => acc +:+ piece) unitPieces EmptyString.

End Unit.

(* ===================================================================== *)
(** ** The output mapping and the manifest *)
(* ===================================================================== *)

(** [Map<string, string>]: entries in insertion order; [set] on a key that
    is present replaces the value where the key stands. *)
Module JsMap.

Definition t : Type := list (string * string).

Definition empty : t := [].

Fixpoint set (m : t) (k v : string) : t :=
  match m with
  | [] => [(k, v)]
  | (k', v') :: m' =>
      if String.eqb k' k then (k', v) :: m' else (k', v') :: set m' k v
  end.

Fixpoint get (m : t) (k : string) : option string :=
  match m with
  | [] => None
  | (k', v') :: m' => if String.eqb k' k then Some v' else get m' k
  end.

Definition keys (m : t) : list string := map fst m.

End JsMap.

(** [generateInterfaces()]: one unit per table, stored under [table.name]. *)
Definition generateInterfaces (db : Database) : JsMap.t :=
  fold_left
    (fun interfaces table =>
       JsMap.set interfaces (tname table)
         (interfaceContent (tname table) (table_info db (tname table))))
    (all_tables db) JsMap.empty.

(** The text [generateFiles] writes to [index.ts]. *)
Definition indexContent (interfaces : JsMap.t) : string :=
  Js.join Js.nl
    (map (fun tableName => "export * from './" +:+ tableName +:+ "';")
         (JsMap.keys interfaces)).

(* ===================================================================== *)
(** ** The generated functions at call time *)
(* ===================================================================== *)

(** The values a record field or a key argument can hold, and what the
    lookup of a member of [Object.prototype] yields. *)
Inductive value :=
| VUndefined
| VNull
| VNumber (n : Z)
| VBigint (n : Z)
| VString (s : string)
| VBytes (b : list ascii)
| VInherited (member : string).

(** How a prepared statement is executed. *)
Inductive method := Get | All | Run.

(** [db.prepare(sql)] followed by one execution with the bound values.
    Every generated function prepares one statement, executes it once and
    returns what the execution yields. *)
Record statement := mkStatement {
  how : method;
  sql : string;
  bound : list value
}.

(** The properties every plain object inherits from [Object.prototype]. *)
Definition objectPrototype : list string :=
  [ "constructor"; "__defineGetter__"; "__defineSetter__"; "hasOwnProperty";
    "__lookupGetter__"; "__lookupSetter__"; "isPrototypeOf";
    "propertyIsEnumerable"; "toString"; "valueOf"; "__proto__";
    "toLocaleString" ].

(** [rec[col]]: the record's own field when it has one (also when its value
    is [undefined]), the inherited member when [col] names one, and
    [undefined] otherwise. *)
Definition field (rec : gmap string value) (col : string) : value :=
  match rec !! col with
  | Some v => v
  | None =>
      if existsb (String.eqb col) objectPrototype then VInherited col
      else VUndefined
  end.

(** [v !== undefined] *)
Definition isDefined (v : value) : bool :=
  match v with VUndefined => false | _ => true end.

(** [names.includes(col)] *)
Definition includes (names : list string) (col : string) : bool :=
  existsb (String.eqb col) names.

(** The values of [n] declared parameters in a call with arguments [args]:
    a missing argument is [undefined], a surplus one is not looked at. *)
Fixpoint parameters (n : nat) (args : list value) : list value :=
  match n with
  | O => []
  | S n' => hd VUndefined args :: parameters n' (tl args)
  end.

Section Generated.

Variable T : string.
Variable columns : list ColumnInfo.

(** [insert<P>(db, rec)] *)
Definition insertColumns (rec : gmap string value) : list string :=
  List.filter (fun col => isDefined (field rec col)) (columnNames columns).

Definition insert (rec : gmap string value) : statement :=
  let insertColumns := insertColumns rec in
  let insertValues := map (fun col => field rec col) insertColumns in
  let placeholders := Js.join ", " (map (fun _ => "?") insertColumns) in
  let sql := "INSERT INTO " +:+ T +:+ " (" +:+ Js.join ", " insertColumns
             +:+ ") VALUES (" +:+ placeholders +:+ ") RETURNING *" in
  mkStatement Get sql insertValues.

(** [getAll<P>(db)] *)
Definition getAll : statement :=
  mkStatement All ("SELECT * FROM " +:+ T) [].

(** The key parameters, one per row of [primaryKeys]. *)
Definition keyValues (keys : list value) : list value :=
  parameters (length (primaryKeys columns)) keys.

(** [get<P>(db, k1, ..., kn)] *)
Definition get (keys : list value) : statement :=
  mkStatement Get ("SELECT * FROM " +:+ T +:+ " WHERE " +:+ pkWhere columns)
              (keyValues keys).

(** [update<P>(db, k1, ..., kn, rec)] *)
Definition updateColumns (rec : gmap string value) : list string :=
  List.filter
    (fun col => isDefined (field rec col) && negb (includes (pkNames columns) col))
    (columnNames columns).

Definition update (keys : list value) (rec : gmap string value) : statement :=
  let updateColumns := updateColumns rec in
  if (length updateColumns =? 0)%nat then get keys
  else
    let setClause := Js.join ", " (map (fun col => col +:+ " = ?") updateColumns) in
    let updateValues := map (fun col => field rec col) updateColumns in
    let sql := "UPDATE " +:+ T +:+ " SET " +:+ setClause +:+ " WHERE "
               +:+ pkWhere columns +:+ " RETURNING *" in
    mkStatement Get sql (updateValues ++ keyValues keys).

(** [delete<P>(db, k1, ..., kn)] *)
Definition delete (keys : list value) : statement :=
  mkStatement Run ("DELETE FROM " +:+ T +:+ " WHERE " +:+ pkWhere columns)
              (keyValues keys).

End Generated.

(** The table of the project's README. *)
Definition users_columns : list ColumnInfo :=
  [ mkColumn 0 "id" "INTEGER" 0 None 1;
    mkColumn 1 "username" "TEXT" 1 None 0;
    mkColumn 2 "email" "TEXT" 1 None 0;
    mkColumn 3 "password_hash" "TEXT" 1 None 0;
    mkColumn 4 "is_admin" "BOOLEAN" 1 (Some "FALSE") 0;
    mkColumn 5 "characters_remaining" "INTEGER" 1 (Some "1000000") 0;
    mkColumn 6 "created_at" "TIMESTAMP" 0 (Some "CURRENT_TIMESTAMP") 0;
    mkColumn 7 "updated_at" "TIMESTAMP" 0 (Some "CURRENT_TIMESTAMP") 0 ].


(* ===================================================================== *)
(** ** Vocabulary of the statements *)
(* ===================================================================== *)

(** The declarations among pieces or lines: those that begin with
    [export]. *)
Definition exported (l : list string) : list string :=
  List.filter (Js.startsWith "export ") l.

(** A piece that is one line of text followed by one or two line breaks. *)
Inductive line_of : string -> string -> Prop :=
| line_once (body : string) :
    Js.singleLine body = true -> line_of (body +:+ Js.nl) body
| line_twice (body : string) :
    Js.singleLine body = true -> line_of (body +:+ Js.nl +:+ Js.nl) body.

(** Ascending primary-key ordinal. *)
Definition pk_le (a b : ColumnInfo) : Prop := pk a <= pk b.

(** The unit of a table of the catalogue, and the body of the loop that
    stores it. *)
Definition unitOf (db : Database) (tableName : string) : string :=
  interfaceContent tableName (table_info db tableName).

Definition store (db : Database) (interfaces : JsMap.t) (table : TableInfo) : JsMap.t :=
  JsMap.set interfaces (tname table) (unitOf db (tname table)).

(** A table with a two-column key declared out of column order. *)
Definition memberships_columns : list ColumnInfo :=
  [ mkColumn 0 "role" "TEXT" 0 None 0;
    mkColumn 1 "group_id" "INTEGER" 1 None 2;
    mkColumn 2 "user_id" "INTEGER" 1 None 1 ].


(** A table whose two key columns stand in the order of their ordinals,
    with another column between them. *)
Definition enrolments_columns : list ColumnInfo :=
  [ mkColumn 0 "student_id" "INTEGER" 1 None 1;
    mkColumn 1 "grade" "TEXT" 0 None 0;
    mkColumn 2 "course_id" "INTEGER" 1 None 2 ].

(** Two tables whose names differ and whose type names agree. *)
Definition colliding : Database :=
  mkDatabase [mkTable "ab"; mkTable "ab_"]
    (fun _ => [mkColumn 0 "x" "TEXT" 0 None 0]).

(** A catalogue that lists the one table [users]. *)
Definition first_run : Database :=
  mkDatabase [mkTable "users"] (fun _ => users_columns).

(* ===================================================================== *)
(** ** The command line: [parseArgs], [generateFiles], [main] *)
(* ===================================================================== *)

(** [obj[key] = value] on an object literal, for a string [value]: the
    key becomes an own property, except [__proto__], whose setter ignores a
    value that is not an object. *)
Definition obj_set (obj : gmap string string) (key value : string) : gmap string string :=
  if String.eqb key "__proto__" then obj else <[key := value]> obj.

(** The loop of [parseArgs], from the argument at index [i] on: [args] is
    what is left of the array there. *)
Fixpoint parseArgs_from (args : list string) (parsedArgs : gmap string string)
  : gmap string string :=
  match args with
  | [] => parsedArgs
  | arg :: rest =>
      if String.eqb arg "--help" then obj_set parsedArgs "help" "true"
      else
        match rest with
        | next :: rest' =>
            if Js.startsWith "--" arg
            then parseArgs_from rest' (obj_set parsedArgs (Js.sliceFrom 2 arg) next)
            else parseArgs_from rest parsedArgs
        | [] => parsedArgs
        end
  end.

Definition parseArgs (args : list string) : gmap string string :=
  parseArgs_from args ∅.

(** A string or [undefined] in a condition. *)
Definition given (v : option string) : bool :=
  match v with
  | Some (String _ _) => true
  | _ => false
  end.

(** The text [showHelp] prints. *)
Definition helpText : string :=
  Js.join Js.nl
    [ EmptyString;
      "SQLite Interface Generator";
      EmptyString;
      "Usage: bunx bun-sqlite-generate [options]";
      EmptyString;
      "Options:";
      "  --schema-file <path>   Path to the SQLite schema file (required)";
      "  --output-dir <path>    Directory to output generated files (required)";
      "  --help                 Show this help message";
      EmptyString;
      "Example:";
      "  bunx bun-sqlite-generate --schema-file ./schema.sql --output-dir ./src/db";
      EmptyString;
      "Description:";
      "  This script generates TypeScript interfaces and CRUD functions from a SQLite schema file.";
      "  It automates the process of creating type-safe database interactions in TypeScript projects.";
      "    " ].

(** What a run does to the outside, in order.  [Mkdir path true] is the
    call [mkdirSync(path, { recursive: true })], which makes the directory
    at [path] together with the ancestors of it that are missing. *)
Inductive event :=
| ConsoleLog (text : string)
| ConsoleError (text : string)
| OpenSchema (path : string)
| Mkdir (path : string) (recursive : bool)
| WriteFile (path content : string)
| Exit (code : Z).

(** What the outside answers: [path.join], the catalogue behind a schema
    file ([None] when reading or executing it throws), whether the database
    accepts [PRAGMA table_info(<name>)] with the name of a table written into
    the statement as it is (it does not for a name such as [index] or
    [order], or one with a space), whether a directory exists, and whether
    creating a directory with its missing ancestors or writing a file
    succeeds rather than throws. *)
Record Host := mkHost {
  path_join : string -> string -> string;
  openSchema : string -> option Database;
  canQuery : string -> bool;
  existsSync : string -> bool;
  canMkdir : string -> bool;
  canWrite : string -> bool
}.

(** A computation that acts on the outside and may throw: the events up to
    the end or to the throw, and the result when nothing was thrown. *)
Definition Action (A : Type) : Type := (list event * option A)%type.

Definition ret {A : Type} (a : A) : Action A := ([], Some a).

Definition throw {A : Type} : Action A := ([], None).

Definition emit (e : event) : Action unit := ([e], Some tt).

Definition bind {A B : Type} (m : Action A) (k : A -> Action B) : Action B :=
  match m with
  | (events, Some a) => let (events', r) := k a in (events ++ events', r)
  | (events, None) => (events, None)
  end.

#[local] Instance action_ret : MRet Action := @ret.
#[local] Instance action_bind : MBind Action := fun A B k m => bind m k.

Section Files.

Variable host : Host.

Definition writeFileSync (path content : string) : Action unit :=
  if canWrite host path then emit (WriteFile path content) else throw.

Definition mkdirSync (path : string) (recursive : bool) : Action unit :=
  if canMkdir host path then emit (Mkdir path recursive) else throw.

(** [for (const [tableName, interfaceContent] of interfaces) { ... }] *)
Fixpoint writeUnits (outputDir : string) (entries : list (string * string)) : Action unit :=
  match entries with
  | [] => ret tt
  | (tableName, content) :: rest =>
      let fileName := tableName +:+ ".ts" in
      let filePath := path_join host outputDir fileName in
      writeFileSync filePath content;;
      emit (ConsoleLog ("Generated " +:+ fileName));;
      writeUnits outputDir rest
  end.

Definition generateFiles (outputDir : string) (interfaces : JsMap.t) : Action unit :=
  (if existsSync host outputDir then ret tt else mkdirSync outputDir true);;
  writeUnits outputDir interfaces;;
  writeFileSync (path_join host outputDir "index.ts") (indexContent interfaces);;
  emit (ConsoleLog "Generated index.ts").

(** [new InterfaceGenerator(schemaPath)] *)
Definition newInterfaceGenerator (schemaPath : string) : Action Database :=
  emit (OpenSchema schemaPath);;
  match openSchema host schemaPath with
  | Some db => ret db
  | None => throw
  end.

(** The loop of [generateInterfaces] as a run goes through it: the query
    for the columns of a table throws when the database does not accept it,
    and the tables before it have been stored by then. *)
Fixpoint queryTables (db : Database) (tables : list TableInfo) (interfaces : JsMap.t)
  : Action JsMap.t :=
  match tables with
  | [] => ret interfaces
  | table :: rest =>
      if canQuery host (tname table)
      then queryTables db rest
             (JsMap.set interfaces (tname table)
                (interfaceContent (tname table) (table_info db (tname table))))
      else throw
  end.

(** [generator.generateInterfaces()] *)
Definition runGenerateInterfaces (db : Database) : Action JsMap.t :=
  queryTables db (all_tables db) JsMap.empty.

(** The [try] block of [main]. *)
Definition generation (schemaPath outputDir : string) : Action unit :=
  emit (ConsoleLog ("Generating interfaces from schema: " +:+ schemaPath));;
  emit (ConsoleLog ("Output directory: " +:+ outputDir));;
  generator ← newInterfaceGenerator schemaPath;
  interfaces ← runGenerateInterfaces generator;
  generateFiles outputDir interfaces;;
  emit (ConsoleLog "Interface generation completed successfully.").

(** [main()], given [process.argv]: the events of the run.  The error
    report keeps the fixed part of its message. *)
Definition main (argv : list string) : list event :=
  let args := parseArgs (skipn 2 argv) in
  if given (args !! "help") then [ConsoleLog helpText; Exit 0]
  else if negb (given (args !! "schema-file")) || negb (given (args !! "output-dir"))
  then [ConsoleError "Error: Missing required arguments."; ConsoleLog helpText; Exit 1]
  else
    let schemaPath := default EmptyString (args !! "schema-file") in
    let outputDir := default EmptyString (args !! "output-dir") in
    match generation schemaPath outputDir with
    | (events, Some _) => events
    | (events, None) =>
        events ++ [ConsoleError "Error during interface generation:"; Exit 1]
    end.

End Files.

(** The files a sequence of events leaves behind: the last write to a path
    stays. *)
Definition record_event (files : gmap string string) (e : event) : gmap string string :=
  match e with
  | WriteFile path content => <[path := content]> files
  | _ => files
  end.

Definition written (events : list event) : gmap string string :=
  fold_left record_event events ∅.

(** The events of writing one unit, and the lines the console shows. *)
Definition unit_written (host : Host) (outputDir : string) (entry : string * string)
  : list event :=
  [ WriteFile (path_join host outputDir (fst entry +:+ ".ts")) (snd entry);
    ConsoleLog ("Generated " +:+ fst entry +:+ ".ts") ].

Definition is_exit (e : event) : bool :=
  match e with Exit _ => true | _ => false end.

(** The arguments that give each flag of a list its value. *)
Definition flagArgs (flags : list (string * string)) : list string :=
  flat_map (fun kv => ["--" +:+ fst kv; snd kv]) flags.

(** Rows that differ at most in [cid], in the default value and in how a
    set NOT NULL flag is written. *)
Definition same_shape (c d : ColumnInfo) : Prop :=
  name c = name d /\ type c = type d /\
  (notnull c = 0 <-> notnull d = 0) /\ pk c = pk d.

(** Whether every table of a catalogue can be queried for its columns. *)
Definition queryable (host : Host) (db : Database) : bool :=
  forallb (fun table => canQuery host (tname table)) (all_tables db).

(** A host whose paths are joined with a slash, with one schema file, a
    database that takes the name of a table unless it is a reserved word,
    and a disk that takes every write. *)
Definition sample_host : Host :=
  mkHost (fun dir file => dir +:+ "/" +:+ file)
         (fun path => if String.eqb path "schema.sql" then Some first_run else None)
         (fun tableName => negb (includes ["index"; "order"; "group"; "table"] tableName))
         (fun _ => false) (fun _ => true) (fun _ => true).

(* ===================================================================== *)
(** ** The README table, evaluated *)
(* ===================================================================== *)

Example pascal_users : pascalCase "users" = "Users".
Proof. reflexivity. Qed.
Example pascal_snake : pascalCase "user_PROFILES__x" = "UserProfilesX".
Proof. reflexivity. Qed.
Example map_integer : mapSqliteTypeToTypescript "integer" = "number | bigint".
Proof. reflexivity. Qed.

Example users_interface :
  interfaceDecl "users" users_columns =
    [ "export interface Users {" +:+ Js.nl;
      "    id: number | bigint;" +:+ Js.nl;
      "    username: string;" +:+ Js.nl;
      "    email: string;" +:+ Js.nl;
      "    password_hash: string;" +:+ Js.nl;
      "    is_admin: number;" +:+ Js.nl;
      "    characters_remaining: number | bigint;" +:+ Js.nl;
      "    created_at: string | null;" +:+ Js.nl;
      "    updated_at: string | null;" +:+ Js.nl;
      "}" +:+ Js.nl +:+ Js.nl ].
Proof. reflexivity. Qed.

Example users_get_header :
  getFunction "users" users_columns (mkColumn 0 "id" "INTEGER" 0 None 1) !! 0%nat =
    Some ("export function getUsers(db: Database, id: number | bigint): Users | null {" +:+ Js.nl).
Proof. reflexivity. Qed.

Example users_insert :
  insert "users" users_columns
    {[ "username" := VString "alice"; "email" := VString "a@x.org"; "created_at" := VUndefined ]} =
    mkStatement Get "INSERT INTO users (username, email) VALUES (?, ?) RETURNING *"
      [VString "alice"; VString "a@x.org"].
Proof. reflexivity. Qed.

Example users_delete :
  delete "users" users_columns [VNumber 7] =
    mkStatement Run "DELETE FROM users WHERE id = ?" [VNumber 7].
Proof. reflexivity. Qed.

Example colliding_manifest :
  indexContent (generateInterfaces colliding) =
    "export * from './ab';" +:+ Js.nl +:+ "export * from './ab_';".
Proof. reflexivity. Qed.

(* ===================================================================== *)
(** ** Strings: splitting and appending *)
(* ===================================================================== *)

Local Arguments String.append : simpl nomatch.

Lemma append_empty_r (s : string) : s +:+ EmptyString = s.
Proof. induction s as [|a s IH]; simpl; [reflexivity | now rewrite IH]. Qed.

Lemma append_assoc (a b c : string) : (a +:+ b) +:+ c = a +:+ (b +:+ c).
Proof. induction a as [|x a IH]; simpl; [reflexivity | now rewrite IH]. Qed.

Lemma append_length (a b : string) :
  String.length (a +:+ b) = (String.length a + String.length b)%nat.
Proof. induction a as [|x a IH]; simpl; [reflexivity | now rewrite IH]. Qed.

Lemma append_neq_self (a b : string) : b <> EmptyString -> a +:+ b <> a.
Proof.
  intros Hb Heq. apply (f_equal String.length) in Heq.
  rewrite append_length in Heq. destruct b; [congruence | simpl in Heq; lia].
Qed.

Lemma split_without_sep (sep : ascii) (s : string) :
  ~ In sep (list_ascii_of_string s) -> Js.split sep s = [s].
Proof.
  induction s as [|a s IH]; simpl; intros Hnot; [reflexivity|].
  destruct (Ascii.eqb_spec a sep) as [->|Hne].
  - exfalso. apply Hnot. now left.
  - rewrite IH; [reflexivity | tauto].
Qed.

Lemma split_at_first_sep (sep : ascii) (pre rest : string) :
  ~ In sep (list_ascii_of_string pre) ->
  Js.split sep (pre +:+ String sep rest) = pre :: Js.split sep rest.
Proof.
  induction pre as [|a pre IH]; simpl; intros Hnot.
  - now rewrite Ascii.eqb_refl.
  - destruct (Ascii.eqb_spec a sep) as [->|Hne].
    + exfalso. apply Hnot. now left.
    + rewrite IH; [reflexivity | tauto].
Qed.

Lemma baseType_segment (pre rest : string) :
  ~ In "("%char (list_ascii_of_string pre) ->
  baseType pre = Js.toUpperCase pre /\
  baseType (pre +:+ "(" +:+ rest) = Js.toUpperCase pre.
Proof.
  intros Hnot. unfold baseType. split.
  - now rewrite split_without_sep.
  - change ("(" +:+ rest) with (String "(" rest).
    now rewrite split_at_first_sep.
Qed.

(** Lookup in an object literal finds an entry of the literal, and fails
    only when the key has none. *)
Lemma typeMap_get_Some (m : list (string * string)) (key v : string) :
  typeMap_get m key = Some v -> In (key, v) m.
Proof.
  induction m as [|[k w] m IH]; simpl; [discriminate|].
  destruct (String.eqb_spec k key) as [->|Hne]; intros H.
  - left. congruence.
  - right. auto.
Qed.

Lemma typeMap_get_None (m : list (string * string)) (key : string) :
  typeMap_get m key = None -> forall v, ~ In (key, v) m.
Proof.
  induction m as [|[k w] m IH]; simpl; [tauto|].
  destruct (String.eqb_spec k key) as [->|Hne]; [discriminate|].
  intros H v [Heq|Hin]; [congruence | exact (IH H v Hin)].
Qed.

Lemma typeMap_values_nonempty (key : string) :
  ~ In (key, EmptyString) typeMap.
Proof.
  unfold typeMap. intros Hin.
  repeat (destruct Hin as [Hin|Hin]; [discriminate Hin|]). exact Hin.
Qed.

(* ===================================================================== *)
(** ** C2: the type mapper *)
(* ===================================================================== *)

(** C2, as claimed, fails: the mapper sends [VARCHAR(255)] to the fallback
    type, not to the string type; [VARCHAR] is not a key of the table. *)
Lemma mapType_varchar_is_any :
  mapSqliteTypeToTypescript "VARCHAR(255)" = "any" /\
  mapSqliteTypeToTypescript "VARCHAR(255)" <> "string".
Proof. split; [reflexivity | discriminate]. Qed.

(** C2 (amended): the mapper looks at the segment before the first ['(']
    only, upper-cased; the result is the table's entry for that segment when
    there is one and the fallback [any] otherwise, so every string is mapped.
    [INTEGER] gives the integer-or-bigint union, [TEXT(255)] the string type,
    [VARCHAR(255)] and [JSONB] the fallback. *)
Theorem mapType_fixed_table (pre rest : string) :
  ~ In "("%char (list_ascii_of_string pre) ->
  (exists target,
      mapSqliteTypeToTypescript pre = target /\
      mapSqliteTypeToTypescript (pre +:+ "(" +:+ rest) = target /\
      (In (Js.toUpperCase pre, target) typeMap \/
       (target = "any" /\ forall v, ~ In (Js.toUpperCase pre, v) typeMap))) /\
  mapSqliteTypeToTypescript "INTEGER" = "number | bigint" /\
  mapSqliteTypeToTypescript "TEXT(255)" = "string" /\
  mapSqliteTypeToTypescript "VARCHAR(255)" = "any" /\
  mapSqliteTypeToTypescript "JSONB" = "any".
Proof.
  intros Hnot. split; [|repeat split; reflexivity].
  destruct (baseType_segment pre rest Hnot) as [Hb1 Hb2].
  unfold mapSqliteTypeToTypescript. rewrite Hb1, Hb2.
  destruct (typeMap_get typeMap (Js.toUpperCase pre)) as [v|] eqn:Hget.
  - apply typeMap_get_Some in Hget. exists v.
    destruct v; [now apply typeMap_values_nonempty in Hget | auto].
  - exists "any". split; [reflexivity|]. split; [reflexivity|].
    right. split; [reflexivity|]. now apply typeMap_get_None.
Qed.

Lemma mapType_fixed_table_witness :
  ~ In "("%char (list_ascii_of_string "blob") /\
  exists target,
    mapSqliteTypeToTypescript "blob" = target /\
    mapSqliteTypeToTypescript ("blob" +:+ "(" +:+ "16)") = target /\
    (In (Js.toUpperCase "blob", target) typeMap \/
     (target = "any" /\ forall v, ~ In (Js.toUpperCase "blob", v) typeMap)).
Proof.
  assert (Hnot : ~ In "("%char (list_ascii_of_string "blob")).
  { simpl. intros H. repeat (destruct H as [H|H]; [discriminate H|]). exact H. }
  split; [exact Hnot|].
  exact (proj1 (mapType_fixed_table "blob" "16)" Hnot)).
Defined.

(* ===================================================================== *)
(** ** The primary-key rows *)
(* ===================================================================== *)

Lemma insert_by_pk_perm (c : ColumnInfo) (l : list ColumnInfo) :
  Permutation (insert_by_pk c l) (c :: l).
Proof.
  induction l as [|d l IH]; simpl; [reflexivity|].
  destruct (pk c - pk d <=? 0); [reflexivity|].
  rewrite IH. apply perm_swap.
Qed.

Lemma sort_by_pk_perm (l : list ColumnInfo) : Permutation (sort_by_pk l) l.
Proof.
  induction l as [|c l IH]; simpl; [reflexivity|].
  rewrite insert_by_pk_perm. now constructor.
Qed.

Lemma insert_by_pk_sorted (c : ColumnInfo) (l : list ColumnInfo) :
  StronglySorted pk_le l -> StronglySorted pk_le (insert_by_pk c l).
Proof.
  induction 1 as [|d l Hs IH Hall]; simpl.
  - repeat constructor.
  - destruct (Z.leb_spec (pk c - pk d) 0) as [Hle|Hgt].
    + constructor; [now constructor|].
      constructor; [unfold pk_le; lia|].
      eapply Forall_impl; [exact Hall|]. unfold pk_le. intros; simpl in *; lia.
    + constructor; [exact IH|].
      rewrite (insert_by_pk_perm c l).
      constructor; [unfold pk_le; lia | exact Hall].
Qed.

Lemma sort_by_pk_sorted (l : list ColumnInfo) : StronglySorted pk_le (sort_by_pk l).
Proof.
  induction l as [|c l IH]; simpl; [constructor | now apply insert_by_pk_sorted].
Qed.

Lemma primaryKeys_perm (columns : list ColumnInfo) :
  Permutation (primaryKeys columns) (List.filter (fun col => pk col >? 0) columns).
Proof. apply sort_by_pk_perm. Qed.

Lemma primaryKeys_sorted (columns : list ColumnInfo) :
  StronglySorted pk_le (primaryKeys columns).
Proof. apply sort_by_pk_sorted. Qed.

Lemma primaryKeys_In (columns : list ColumnInfo) (c : ColumnInfo) :
  In c (primaryKeys columns) <-> In c columns /\ 0 < pk c.
Proof.
  rewrite <- !list_elem_of_In, primaryKeys_perm, !list_elem_of_In.
  rewrite List.filter_In. now rewrite Z.gtb_gt, Z.gt_lt_iff.
Qed.

Lemma primaryKeys_nil (columns : list ColumnInfo) :
  primaryKeys columns = [] <-> forall c, In c columns -> pk c <= 0.
Proof.
  split.
  - intros Hnil c Hin. destruct (Z.le_gt_cases (pk c) 0) as [|Hpos]; [assumption|].
    assert (Hc : In c (primaryKeys columns)) by (apply primaryKeys_In; auto).
    rewrite Hnil in Hc. destruct Hc.
  - intros Hall. destruct (primaryKeys columns) as [|c l] eqn:Heq; [reflexivity|].
    assert (Hc : In c (primaryKeys columns)) by (rewrite Heq; now left).
    apply primaryKeys_In in Hc as [Hin Hpos]. apply Hall in Hin. lia.
Qed.

(* ===================================================================== *)
(** ** C3: nullability of the declared fields *)
(* ===================================================================== *)

Lemma nullSuffix_cases (c : ColumnInfo) :
  (nullSuffix c = EmptyString /\ (notnull c <> 0 \/ pk c <> 0)) \/
  (nullSuffix c = " | null" /\ notnull c = 0 /\ pk c = 0).
Proof.
  unfold nullSuffix, truthy.
  destruct (Z.eqb_spec (notnull c) 0), (Z.eqb_spec (pk c) 0); simpl; auto.
Qed.

(** C3: every column of a table has its line in the type declaration; the
    type of the field is the mapped type alone (no null alternative) exactly
    when the column is declared NOT NULL or belongs to the primary key, and
    the mapped type followed by [| null] exactly otherwise.  A primary-key
    column needs no NOT NULL constraint for that. *)
Theorem field_nullable_iff (T : string) (columns : list ColumnInfo) (c : ColumnInfo) :
  In c columns ->
  0 <= pk c ->
  let ty := mapSqliteTypeToTypescript (type c) in
  In ("    " +:+ name c +:+ ": " +:+ fieldType c +:+ ";" +:+ Js.nl)
     (interfaceDecl T columns) /\
  (fieldType c = ty <-> (notnull c <> 0 \/ In c (primaryKeys columns))) /\
  (fieldType c = ty +:+ " | null" <->
     ~ (notnull c <> 0 \/ In c (primaryKeys columns))) /\
  (In c (primaryKeys columns) -> notnull c = 0 -> fieldType c = ty).
Proof.
  intros Hin Hpk ty.
  assert (Hkey : In c (primaryKeys columns) <-> pk c <> 0).
  { rewrite primaryKeys_In. split; [lia | intros; split; [assumption | lia]]. }
  assert (Hne : ty +:+ " | null" <> ty) by (apply append_neq_self; discriminate).
  split.
  { unfold interfaceDecl. apply in_or_app. right. apply in_or_app. left.
    apply (in_map (fieldLine) columns c Hin). }
  unfold fieldType. fold ty.
  destruct (nullSuffix_cases c) as [[-> Hyes]|[-> [Hnn Hnk]]].
  - rewrite append_empty_r, Hkey. split; [tauto|]. split; [|reflexivity].
    split; [intros Heq; now symmetry in Heq | tauto].
  - rewrite Hkey. split; [|split; [|tauto]].
    + split; [intros Heq; now apply Hne in Heq | tauto].
    + split; [tauto | reflexivity].
Qed.

Lemma field_nullable_iff_witness :
  let c := mkColumn 0 "id" "INTEGER" 0 None 1 in
  In c users_columns /\ 0 <= pk c /\
  fieldType c = "number | bigint".
Proof.
  intros c.
  assert (Hin : In c users_columns) by (left; reflexivity).
  assert (Hpk : 0 <= pk c) by (simpl; lia).
  split; [exact Hin|]. split; [exact Hpk|].
  destruct (field_nullable_iff "users" users_columns c Hin Hpk) as (_ & _ & _ & Hkey).
  apply Hkey; [|reflexivity].
  apply primaryKeys_In. split; [exact Hin | simpl; lia].
Defined.

(* ===================================================================== *)
(** ** The lines of a unit *)
(* ===================================================================== *)

Lemma singleLine_app (a b : string) :
  Js.singleLine (a +:+ b) = Js.singleLine a && Js.singleLine b.
Proof.
  induction a as [|c a IH]; simpl; [reflexivity|].
  now rewrite IH, andb_assoc.
Qed.

Lemma singleLine_no_break (s : string) :
  Js.singleLine s = true -> ~ In "010"%char (list_ascii_of_string s).
Proof.
  induction s as [|c s IH]; simpl; [tauto|].
  rewrite andb_true_iff, negb_true_iff. intros [Hc Hs] [Heq|Hin].
  - subst c. discriminate Hc.
  - now apply IH.
Qed.

Lemma singleLine_map_chars (f : ascii -> ascii) (s : string) :
  (forall c, Ascii.eqb (f c) "010" = Ascii.eqb c "010") ->
  Js.singleLine (Js.map_chars f s) = Js.singleLine s.
Proof.
  intros Hf. induction s as [|c s IH]; simpl; [reflexivity|].
  now rewrite Hf, IH.
Qed.

Lemma upper_char_break (c : ascii) :
  Ascii.eqb (Js.upper_char c) "010" = Ascii.eqb c "010".
Proof. destruct c as [[] [] [] [] [] [] [] []]; reflexivity. Qed.

Lemma lower_char_break (c : ascii) :
  Ascii.eqb (Js.lower_char c) "010" = Ascii.eqb c "010".
Proof. destruct c as [[] [] [] [] [] [] [] []]; reflexivity. Qed.

Lemma singleLine_split (sep : ascii) (s : string) :
  Js.singleLine s = true ->
  Forall (fun w => Js.singleLine w = true) (Js.split sep s).
Proof.
  induction s as [|c s IH]; simpl.
  - repeat constructor.
  - rewrite andb_true_iff. intros [Hc Hs]. specialize (IH Hs).
    destruct (Ascii.eqb c sep); [now constructor|].
    destruct (Js.split sep s) as [|w ws]; [repeat constructor; simpl; now rewrite Hc|].
    inversion IH as [|? ? Hw Hws]; subst.
    constructor; [simpl; now rewrite Hc, Hw | exact Hws].
Qed.

Lemma singleLine_join (sep : string) (l : list string) :
  Js.singleLine sep = true ->
  Forall (fun w => Js.singleLine w = true) l ->
  Js.singleLine (Js.join sep l) = true.
Proof.
  intros Hsep. induction 1 as [|w l Hw Hl IH]; [reflexivity|].
  unfold Js.join in *. simpl. destruct l as [|w' l']; [exact Hw|].
  rewrite !singleLine_app, Hw, Hsep. exact IH.
Qed.

Lemma singleLine_capitalize (w : string) :
  Js.singleLine w = true -> Js.singleLine (capitalize w) = true.
Proof.
  intros Hw. unfold capitalize, Js.toUpperCase, Js.toLowerCase.
  rewrite singleLine_app.
  rewrite (singleLine_map_chars _ _ upper_char_break).
  rewrite (singleLine_map_chars _ _ lower_char_break).
  destruct w as [|c w]; [reflexivity|]. simpl in *.
  apply andb_true_iff in Hw as [-> ->]. reflexivity.
Qed.

Lemma singleLine_pascalCase (T : string) :
  Js.singleLine T = true -> Js.singleLine (pascalCase T) = true.
Proof.
  intros HT. unfold pascalCase. apply singleLine_join; [reflexivity|].
  apply Forall_map. eapply Forall_impl; [apply singleLine_split, HT|].
  intros w Hw. now apply singleLine_capitalize.
Qed.

Lemma singleLine_json_escape (c : ascii) : Js.singleLine (Js.json_escape c) = true.
Proof. destruct c as [[] [] [] [] [] [] [] []]; reflexivity. Qed.

Lemma singleLine_json_string (s : string) : Js.singleLine (Js.json_string s) = true.
Proof.
  unfold Js.json_string. rewrite !singleLine_app.
  assert (Hchars : Js.singleLine (Js.json_chars s) = true).
  { induction s as [|c s IH]; simpl; [reflexivity|].
    now rewrite singleLine_app, singleLine_json_escape, IH. }
  now rewrite Hchars.
Qed.

Lemma singleLine_json_string_array (l : list string) :
  Js.singleLine (Js.json_string_array l) = true.
Proof.
  unfold Js.json_string_array. rewrite !singleLine_app.
  rewrite singleLine_join; [reflexivity | reflexivity |].
  apply Forall_map, Forall_forall. intros s _. apply singleLine_json_string.
Qed.

Lemma singleLine_mapType (t : string) :
  Js.singleLine (mapSqliteTypeToTypescript t) = true.
Proof.
  unfold mapSqliteTypeToTypescript.
  destruct (typeMap_get typeMap (baseType t)) as [v|] eqn:Hget; [|reflexivity].
  apply typeMap_get_Some in Hget. unfold typeMap in Hget.
  repeat (destruct Hget as [Hget|Hget]; [injection Hget as _ <-; reflexivity|]).
  destruct Hget.
Qed.

Lemma split_nonempty (sep : ascii) (s : string) : Js.split sep s <> [].
Proof.
  destruct s as [|c s]; simpl; [discriminate|].
  destruct (Ascii.eqb c sep); [discriminate|].
  destruct (Js.split sep s); discriminate.
Qed.

Lemma split_app_sep (sep : ascii) (a b : string) :
  Js.split sep (a +:+ String sep b) = Js.split sep a ++ Js.split sep b.
Proof.
  induction a as [|c a IH]; simpl.
  - now rewrite Ascii.eqb_refl.
  - destruct (Ascii.eqb c sep); [now rewrite IH|].
    rewrite IH. pose proof (split_nonempty sep a) as Hne.
    destruct (Js.split sep a); [congruence | reflexivity].
Qed.

(** The text that a list of pieces adds up to. *)
Lemma fold_left_append (pieces : list string) (acc : string) :
  fold_left (fun acc piece => acc +:+ piece) pieces acc
  = acc +:+ fold_right String.append EmptyString pieces.
Proof.
  revert acc. induction pieces as [|p pieces IH]; intros acc; simpl.
  - now rewrite append_empty_r.
  - now rewrite IH, append_assoc.
Qed.

Lemma lines_line (body rest : string) :
  Js.singleLine body = true ->
  Js.lines (body +:+ Js.nl +:+ rest) = body :: Js.lines rest.
Proof.
  intros Hb. unfold Js.lines.
  change (Js.nl +:+ rest) with (String "010" rest).
  apply split_at_first_sep. now apply singleLine_no_break.
Qed.

Lemma exported_lines (pieces bodies : list string) :
  Forall2 line_of pieces bodies ->
  exported (Js.lines (fold_right String.append EmptyString pieces)) = exported bodies.
Proof.
  induction 1 as [|piece body pieces bodies Hline _ IH]; [reflexivity|].
  simpl fold_right. destruct Hline as [body Hb|body Hb].
  - rewrite append_assoc, lines_line by exact Hb.
    unfold exported in *. simpl. now rewrite IH.
  - rewrite !append_assoc, lines_line by exact Hb.
    change (Js.nl +:+ fold_right String.append EmptyString pieces)
      with (EmptyString +:+ Js.nl +:+ fold_right String.append EmptyString pieces).
    rewrite (lines_line EmptyString) by reflexivity.
    unfold exported in *. simpl. now rewrite IH.
Qed.

Lemma line_of_app (a piece body : string) :
  Js.singleLine a = true -> line_of piece body -> line_of (a +:+ piece) (a +:+ body).
Proof.
  intros Ha [b Hb|b Hb].
  - rewrite <- append_assoc. constructor. now rewrite singleLine_app, Ha, Hb.
  - rewrite <- append_assoc. constructor. now rewrite singleLine_app, Ha, Hb.
Qed.

Section Lines.

Variable T : string.
Variable columns : list ColumnInfo.
Hypothesis T_single : Js.singleLine T = true.
Hypothesis names_single : forall c, In c columns -> Js.singleLine (name c) = true.

Lemma pk_names_single (c : ColumnInfo) :
  In c (primaryKeys columns) -> Js.singleLine (name c) = true.
Proof. intros Hc. apply names_single. now apply primaryKeys_In in Hc. Qed.

Lemma pkParams_single : Js.singleLine (pkParams columns) = true.
Proof.
  apply singleLine_join; [reflexivity|]. apply Forall_map, Forall_forall.
  intros c Hc%list_elem_of_In. unfold pkParam.
  now rewrite !singleLine_app, pk_names_single, singleLine_mapType.
Qed.

Lemma pkWhere_single : Js.singleLine (pkWhere columns) = true.
Proof.
  apply singleLine_join; [reflexivity|]. apply Forall_map, Forall_forall.
  intros c Hc%list_elem_of_In. unfold pkCondition.
  now rewrite !singleLine_app, pk_names_single.
Qed.

Lemma pkArgs_single : Js.singleLine (pkArgs columns) = true.
Proof.
  apply singleLine_join; [reflexivity|]. apply Forall_map, Forall_forall.
  intros c Hc%list_elem_of_In. now apply pk_names_single.
Qed.

Ltac single_line :=
  rewrite ?singleLine_app, ?T_single, ?(singleLine_pascalCase T T_single),
    ?singleLine_json_string_array, ?singleLine_mapType,
    ?pkParams_single, ?pkWhere_single, ?pkArgs_single;
  reflexivity.

Ltac one_line :=
  repeat first
    [ apply line_once; single_line
    | apply line_twice; single_line
    | apply line_of_app; [single_line|] ].

Ltac each_line :=
  repeat (apply List.Forall2_cons; [one_line|]); try apply List.Forall2_nil.

Lemma fields_lines :
  Forall2 line_of (map fieldLine columns)
    (map (fun c => "    " +:+ name c +:+ ": " +:+ fieldType c +:+ ";") columns).
Proof.
  induction columns as [|c l IH]; cbn [map]; constructor.
  - unfold fieldLine.
    assert (Hname : Js.singleLine (name c) = true) by (apply names_single; now left).
    assert (Htype : Js.singleLine (fieldType c) = true).
    { unfold fieldType, nullSuffix. rewrite singleLine_app, singleLine_mapType.
      now destruct (truthy (notnull c) || truthy (pk c)). }
    repeat first
      [ apply line_once; rewrite ?singleLine_app, ?Hname, ?Htype; reflexivity
      | apply line_of_app; [rewrite ?Hname, ?Htype; reflexivity|] ].
  - apply IH. intros d Hd. apply names_single. now right.
Qed.

Lemma no_export_among_field_lines (l : list ColumnInfo) :
  exported (map (fun c => "    " +:+ name c +:+ ": " +:+ fieldType c +:+ ";") l) = [].
Proof. induction l as [|c l IH]; [reflexivity | exact IH]. Qed.

(** The lines of a unit that begin with [export]. *)
Lemma unit_lines :
  let P := pascalCase T in
  exported (Js.lines (interfaceContent T columns)) =
    [ "export interface " +:+ P +:+ " {";
      "export function insert" +:+ P +:+ "(db: Database, " +:+ T +:+ ": Partial<"
        +:+ P +:+ ">): " +:+ P +:+ " {";
      "export function getAll" +:+ P +:+ "(db: Database): " +:+ P +:+ "[] {" ]
    ++ match primaryKeys columns with
       | [] => []
       | _ :: _ =>
         [ "export function get" +:+ P +:+ "(db: Database, " +:+ pkParams columns
             +:+ "): " +:+ P +:+ " | null {";
           "export function update" +:+ P +:+ "(db: Database, " +:+ pkParams columns
             +:+ ", " +:+ T +:+ ": Partial<" +:+ P +:+ ">): " +:+ P +:+ " | null {";
           "export function delete" +:+ P +:+ "(db: Database, " +:+ pkParams columns
             +:+ "): void {" ]
       end.
Proof.
  intros P. unfold interfaceContent. rewrite fold_left_append.
  change (EmptyString +:+ ?s) with s.
  assert (Hhead : exists bodies,
            Forall2 line_of
              ([importLine] ++ interfaceDecl T columns ++ insertFunction T columns
                 ++ getAllFunction T) bodies /\
            exported bodies =
              [ "export interface " +:+ P +:+ " {";
                "export function insert" +:+ P +:+ "(db: Database, " +:+ T +:+ ": Partial<"
                  +:+ P +:+ ">): " +:+ P +:+ " {";
                "export function getAll" +:+ P +:+ "(db: Database): " +:+ P +:+ "[] {" ]).
  { eexists. split.
    - apply List.Forall2_app; [unfold importLine; each_line|].
      unfold interfaceDecl.
      apply List.Forall2_app; [|apply List.Forall2_app].
      + apply List.Forall2_app; [each_line|].
        apply List.Forall2_app; [apply fields_lines | each_line].
      + unfold insertFunction. each_line.
      + unfold getAllFunction. each_line.
    - unfold exported. rewrite !List.filter_app.
      fold (exported (map (fun c => "    " +:+ name c +:+ ": " +:+ fieldType c +:+ ";") columns)).
      rewrite no_export_among_field_lines. reflexivity. }
  assert (Htail : exists bodies,
            Forall2 line_of (keyedFunctions T columns) bodies /\
            exported bodies =
              match primaryKeys columns with
              | [] => []
              | _ :: _ =>
                [ "export function get" +:+ P +:+ "(db: Database, " +:+ pkParams columns
                    +:+ "): " +:+ P +:+ " | null {";
                  "export function update" +:+ P +:+ "(db: Database, " +:+ pkParams columns
                    +:+ ", " +:+ T +:+ ": Partial<" +:+ P +:+ ">): " +:+ P +:+ " | null {";
                  "export function delete" +:+ P +:+ "(db: Database, " +:+ pkParams columns
                    +:+ "): void {" ]
              end).
  { unfold keyedFunctions. destruct (primaryKeys columns) as [|pk0 pks].
    - exists []. split; [constructor | reflexivity].
    - eexists. split.
      + apply List.Forall2_app; [|apply List.Forall2_app].
        * unfold getFunction. each_line.
        * unfold updateFunction. each_line.
        * unfold deleteFunction. each_line.
      + reflexivity. }
  destruct Hhead as (heads & Hheads & Hexp1), Htail as (tails & Htails & Hexp2).
  replace (unitPieces T columns)
    with (([importLine] ++ interfaceDecl T columns ++ insertFunction T columns
             ++ getAllFunction T) ++ keyedFunctions T columns)
    by (unfold unitPieces; rewrite <- !app_assoc; reflexivity).
  rewrite (exported_lines _ (heads ++ tails)).
  - unfold exported in *. now rewrite List.filter_app, Hexp1, Hexp2.
  - now apply List.Forall2_app.
Qed.

End Lines.

(* ===================================================================== *)
(** ** C1: which functions a unit declares *)
(* ===================================================================== *)

Lemma append_same_length (x y s1 s2 : string) :
  String.length s1 = String.length s2 ->
  x +:+ s1 = y +:+ s2 -> x = y /\ s1 = s2.
Proof.
  intros Hlen Heq.
  assert (Hxy : String.length x = String.length y).
  { apply (f_equal String.length) in Heq. rewrite !append_length in Heq. lia. }
  clear Hlen. revert y Hxy Heq.
  induction x as [|a x IH]; intros [|b y] Hxy Heq; simpl in *; try discriminate.
  - now split.
  - injection Heq as -> Heq. destruct (IH y) as [-> ->]; [lia | exact Heq | now split].
Qed.

Lemma startsWith_differ (p a b : string) :
  Js.startsWith p a = true -> Js.startsWith p b = false -> a <> b.
Proof. intros Ha Hb Heq. congruence. Qed.

Lemma no_export_among_fields (columns : list ColumnInfo) :
  exported (map fieldLine columns) = [].
Proof. induction columns as [|c l IH]; [reflexivity | exact IH]. Qed.

(** The header of get-by-key is not the header of read-all, whatever the
    type name: they end differently. *)
Lemma get_header_not_getAll (P params : string) :
  "export function get" +:+ P +:+ "(db: Database, " +:+ params +:+ "): " +:+ P +:+ " | null {"
  <> "export function getAll" +:+ P +:+ "(db: Database): " +:+ P +:+ "[] {".
Proof.
  intros Heq.
  assert (Htail : "ll {" = "[] {"); [|discriminate Htail].
  apply (append_same_length
           ("export function get" +:+ P +:+ "(db: Database, " +:+ params +:+ "): " +:+ P +:+ " | nu")
           ("export function getAll" +:+ P +:+ "(db: Database): " +:+ P)).
  - reflexivity.
  - rewrite !append_assoc. exact Heq.
Qed.

(** The pieces of a unit that begin with [export]. *)
Lemma unit_pieces_exported (T : string) (columns : list ColumnInfo) :
  let P := pascalCase T in
  exported (unitPieces T columns) =
    map (fun header => header +:+ Js.nl)
      ([ "export interface " +:+ P +:+ " {";
         "export function insert" +:+ P +:+ "(db: Database, " +:+ T +:+ ": Partial<"
           +:+ P +:+ ">): " +:+ P +:+ " {";
         "export function getAll" +:+ P +:+ "(db: Database): " +:+ P +:+ "[] {" ]
       ++ match primaryKeys columns with
          | [] => []
          | _ :: _ =>
            [ "export function get" +:+ P +:+ "(db: Database, " +:+ pkParams columns
                +:+ "): " +:+ P +:+ " | null {";
              "export function update" +:+ P +:+ "(db: Database, " +:+ pkParams columns
                +:+ ", " +:+ T +:+ ": Partial<" +:+ P +:+ ">): " +:+ P +:+ " | null {";
              "export function delete" +:+ P +:+ "(db: Database, " +:+ pkParams columns
                +:+ "): void {" ]
          end).
Proof.
  intros P. unfold unitPieces, interfaceDecl, exported.
  rewrite !List.filter_app. fold (exported (map fieldLine columns)).
  rewrite no_export_among_fields, map_app.
  unfold keyedFunctions.
  destruct (primaryKeys columns) as [|pk0 pks]; cbn [map]; rewrite !append_assoc;
    reflexivity.
Qed.

(** C1: the declarations of a unit are its pieces, and the lines of its
    text, that begin with [export].  They are the type, the create function
    and the read-all function, and, exactly when the primary key is not
    empty, the get, update and delete functions after them.  A table without
    a primary-key column declares the first three and nothing else.  (The
    lines are read off the text for names that hold no line break.) *)
Theorem keyed_functions_iff_primary_key (T : string) (columns : list ColumnInfo) :
  let P := pascalCase T in
  let unkeyed :=
    [ "export interface " +:+ P +:+ " {";
      "export function insert" +:+ P +:+ "(db: Database, " +:+ T +:+ ": Partial<"
        +:+ P +:+ ">): " +:+ P +:+ " {";
      "export function getAll" +:+ P +:+ "(db: Database): " +:+ P +:+ "[] {" ] in
  let keyed :=
    [ "export function get" +:+ P +:+ "(db: Database, " +:+ pkParams columns
        +:+ "): " +:+ P +:+ " | null {";
      "export function update" +:+ P +:+ "(db: Database, " +:+ pkParams columns
        +:+ ", " +:+ T +:+ ": Partial<" +:+ P +:+ ">): " +:+ P +:+ " | null {";
      "export function delete" +:+ P +:+ "(db: Database, " +:+ pkParams columns
        +:+ "): void {" ] in
  let piece header := header +:+ Js.nl in
  (primaryKeys columns = [] <-> forall c, In c columns -> pk c <= 0) /\
  (primaryKeys columns = [] -> exported (unitPieces T columns) = map piece unkeyed) /\
  (primaryKeys columns <> [] ->
     exported (unitPieces T columns) = map piece (unkeyed ++ keyed)) /\
  (forall h, In h keyed ->
     (In (piece h) (exported (unitPieces T columns)) <-> primaryKeys columns <> [])) /\
  (Js.singleLine T = true ->
   (forall c, In c columns -> Js.singleLine (name c) = true) ->
   (primaryKeys columns = [] ->
      exported (Js.lines (interfaceContent T columns)) = unkeyed) /\
   (primaryKeys columns <> [] ->
      exported (Js.lines (interfaceContent T columns)) = unkeyed ++ keyed) /\
   (forall h, In h keyed ->
      (In h (exported (Js.lines (interfaceContent T columns)))
       <-> primaryKeys columns <> []))).
Proof.
  intros P unkeyed keyed piece.
  pose proof (unit_pieces_exported T columns) as Hpieces.
  pose proof (unit_lines T columns) as Hlines.
  cbv zeta in Hpieces, Hlines. fold P in Hpieces, Hlines.
  fold unkeyed keyed in Hpieces, Hlines. fold piece in Hpieces.
  assert (Hapart : forall h, In h keyed -> ~ In h unkeyed).
  { intros h Hk Hu. revert Hk.
    destruct Hu as [<-|[<-|[<-|[]]]]; intros [Hk|[Hk|[Hk|[]]]]; revert Hk;
      try (apply get_header_not_getAll);
      try (apply (startsWith_differ "export function g"); reflexivity);
      try (apply (startsWith_differ "export function u"); reflexivity);
      try (apply (startsWith_differ "export function d"); reflexivity). }
  assert (Hmember : forall h, In h keyed ->
            (In h (unkeyed ++ match primaryKeys columns with [] => [] | _ :: _ => keyed end)
             <-> primaryKeys columns <> [])).
  { intros h Hk. rewrite in_app_iff. destruct (primaryKeys columns) as [|pk0 pks].
    - split; [intros [Hu|[]]; now apply Hapart in Hu | congruence].
    - split; [discriminate | auto]. }
  assert (Hpiece : forall h l, In (piece h) (map piece l) <-> In h l).
  { intros h l. rewrite in_map_iff. split; [|intros Hin; now exists h].
    intros (u & Heq & Hin). unfold piece in Heq.
    apply append_same_length in Heq as [-> _]; [exact Hin | reflexivity]. }
  split; [apply primaryKeys_nil|].
  split; [|split; [|split]].
  - intros Hnil. rewrite Hpieces, Hnil. now rewrite app_nil_r.
  - intros Hne. rewrite Hpieces. destruct (primaryKeys columns); [congruence | reflexivity].
  - intros h Hk. rewrite Hpieces, Hpiece. now apply Hmember.
  - intros HT Hnames. specialize (Hlines HT Hnames).
    split; [|split].
    + intros Hnil. rewrite Hlines, Hnil. now rewrite app_nil_r.
    + intros Hne. rewrite Hlines. destruct (primaryKeys columns); [congruence | reflexivity].
    + intros h Hk. rewrite Hlines. now apply Hmember.
Qed.

Lemma keyed_functions_iff_primary_key_witness :
  Js.singleLine "users" = true /\
  (forall c, In c users_columns -> Js.singleLine (name c) = true) /\
  primaryKeys users_columns <> [] /\
  exported (Js.lines (interfaceContent "users" users_columns)) =
    [ "export interface Users {";
      "export function insertUsers(db: Database, users: Partial<Users>): Users {";
      "export function getAllUsers(db: Database): Users[] {";
      "export function getUsers(db: Database, id: number | bigint): Users | null {";
      "export function updateUsers(db: Database, id: number | bigint, users: Partial<Users>): Users | null {";
      "export function deleteUsers(db: Database, id: number | bigint): void {" ].
Proof.
  assert (HT : Js.singleLine "users" = true) by reflexivity.
  assert (Hnames : forall c, In c users_columns -> Js.singleLine (name c) = true).
  { intros c Hin. unfold users_columns in Hin.
    repeat (destruct Hin as [<-|Hin]; [reflexivity|]). destruct Hin. }
  assert (Hpk : primaryKeys users_columns <> []) by discriminate.
  split; [exact HT|]. split; [exact Hnames|]. split; [exact Hpk|].
  destruct (keyed_functions_iff_primary_key "users" users_columns)
    as (_ & _ & _ & _ & Htext).
  destruct (Htext HT Hnames) as (_ & Hkeyed & _).
  exact (Hkeyed Hpk).
Defined.

(* ===================================================================== *)
(** ** Records and the columns they supply *)
(* ===================================================================== *)

Lemma includes_In (names : list string) (col : string) :
  includes names col = true <-> In col names.
Proof.
  unfold includes. rewrite existsb_exists. split.
  - intros (x & Hin & Heq). apply String.eqb_eq in Heq. now subst.
  - intros Hin. exists col. split; [exact Hin | apply String.eqb_refl].
Qed.

(** When a lookup in a record is not undefined. *)
Lemma isDefined_field (rec : gmap string value) (col : string) :
  isDefined (field rec col) = true <->
  (exists v, rec !! col = Some v /\ v <> VUndefined) \/
  (rec !! col = None /\ In col objectPrototype).
Proof.
  unfold field. destruct (rec !! col) as [v|].
  - split.
    + intros Hd. left. exists v. split; [reflexivity|]. intros ->. discriminate.
    + intros [(w & [= <-] & Hw)|[Hnone _]]; [|discriminate Hnone].
      destruct v; [congruence | reflexivity..].
  - fold (includes objectPrototype col).
    destruct (includes objectPrototype col) eqn:Hin.
    + apply includes_In in Hin. split; [right; now split | reflexivity].
    + split; [discriminate|].
      intros [(v & Hv & _)|[_ Hmem]]; [discriminate Hv|].
      apply includes_In in Hmem. congruence.
Qed.

Lemma field_own_or_plain (rec : gmap string value) (col : string) :
  ~ In col objectPrototype ->
  (isDefined (field rec col) = true <->
   exists v, rec !! col = Some v /\ v <> VUndefined).
Proof.
  intros Hplain. rewrite isDefined_field. split; [|now left].
  intros [Hown|[_ Hmem]]; [exact Hown | contradiction].
Qed.

Lemma filter_sublist {A : Type} (f : A -> bool) (l : list A) :
  sublist (List.filter f l) l.
Proof.
  induction l as [|x l IH]; simpl; [constructor|].
  destruct (f x); now constructor.
Qed.




Lemma parameters_length (n : nat) (args : list value) :
  length (parameters n args) = n.
Proof. revert args. induction n as [|n IH]; intros args; simpl; [reflexivity | now rewrite IH]. Qed.


(* ===================================================================== *)
(** ** C4 and C10: the create function *)
(* ===================================================================== *)




(* ===================================================================== *)
(** ** Where the keyed functions stand in a unit *)
(* ===================================================================== *)






(* ===================================================================== *)
(** ** C5 and C7: the update function *)
(* ===================================================================== *)






(* ===================================================================== *)
(** ** C6: the key parameters *)
(* ===================================================================== *)



(* ===================================================================== *)
(** ** The output mapping *)
(* ===================================================================== *)

Lemma JsMap_get_set_eq (m : JsMap.t) (k v : string) :
  JsMap.get (JsMap.set m k v) k = Some v.
Proof.
  induction m as [|[k' v'] m IH]; simpl.
  - now rewrite String.eqb_refl.
  - destruct (String.eqb_spec k' k) as [->|Hne]; simpl.
    + now rewrite String.eqb_refl.
    + destruct (String.eqb_spec k' k); [contradiction | exact IH].
Qed.

Lemma JsMap_get_set_ne (m : JsMap.t) (k k' v : string) :
  k <> k' -> JsMap.get (JsMap.set m k v) k' = JsMap.get m k'.
Proof.
  intros Hne. induction m as [|[k0 v0] m IH]; simpl.
  - destruct (String.eqb_spec k k'); [contradiction | reflexivity].
  - destruct (String.eqb_spec k0 k) as [->|Hne0]; simpl.
    + destruct (String.eqb_spec k k'); [contradiction | reflexivity].
    + now rewrite IH.
Qed.

Section Store.

Variable db : Database.

(** Storing further tables keeps the unit of a table already stored and
    stores the unit of every table met. *)
Lemma stored_units (tables : list TableInfo) (m : JsMap.t) (k : string) :
  (In k (map tname tables) \/ JsMap.get m k = Some (unitOf db k)) ->
  JsMap.get (fold_left (store db) tables m) k = Some (unitOf db k).
Proof.
  revert m. induction tables as [|t tables IH]; intros m Hk; simpl in *.
  - destruct Hk as [[]|Hk]; exact Hk.
  - apply IH. destruct (String.eqb_spec (tname t) k) as [<-|Hne].
    + right. apply JsMap_get_set_eq.
    + destruct Hk as [[Heq|Hin]|Hget]; [contradiction | now left |].
      right. unfold store. now rewrite JsMap_get_set_ne.
Qed.

Lemma generateInterfaces_get (t : TableInfo) :
  In t (all_tables db) ->
  JsMap.get (generateInterfaces db) (tname t) = Some (unitOf db (tname t)).
Proof.
  intros Hin. apply (stored_units (all_tables db) JsMap.empty).
  left. now apply in_map.
Qed.

End Store.

Lemma interface_header_piece (T : string) (columns : list ColumnInfo) :
  In ("export interface " +:+ pascalCase T +:+ " {" +:+ Js.nl) (unitPieces T columns).
Proof. unfold unitPieces, interfaceDecl. right. now left. Qed.

(* ===================================================================== *)
(** ** C8: table names with one type name *)
(* ===================================================================== *)

(** C8, as claimed, fails: the tables [ab] and [ab_] have the type name
    [Ab] in common, and the mapping holds the unit of each; more generally,
    no schema has two tables of different names one of which is not mapped
    to its own unit. *)
Lemma no_unit_overwritten :
  (pascalCase "ab" = pascalCase "ab_" /\
   JsMap.keys (generateInterfaces colliding) = ["ab"; "ab_"] /\
   JsMap.get (generateInterfaces colliding) "ab" = Some (unitOf colliding "ab") /\
   JsMap.get (generateInterfaces colliding) "ab_" = Some (unitOf colliding "ab_") /\
   unitOf colliding "ab" <> unitOf colliding "ab_") /\
  ~ exists (db : Database) (t1 t2 : TableInfo),
      In t1 (all_tables db) /\ In t2 (all_tables db) /\
      tname t1 <> tname t2 /\
      pascalCase (tname t1) = pascalCase (tname t2) /\
      (JsMap.get (generateInterfaces db) (tname t1) <> Some (unitOf db (tname t1)) \/
       JsMap.get (generateInterfaces db) (tname t2) <> Some (unitOf db (tname t2))).
Proof.
  split.
  - repeat split; try reflexivity. vm_compute. discriminate.
  - intros (db & t1 & t2 & H1 & H2 & _ & _ & [Hlost|Hlost]); apply Hlost;
      now apply generateInterfaces_get.
Qed.

(** C8 (amended): the mapping is keyed by the table name, not by the type
    name.  Two tables of different names each keep their own unit, also when
    their type names agree; in that case the two units declare the same type
    name, and nothing detects it. *)
Theorem units_keyed_by_table_name (db : Database) (t1 t2 : TableInfo) :
  In t1 (all_tables db) ->
  In t2 (all_tables db) ->
  tname t1 <> tname t2 ->
  JsMap.get (generateInterfaces db) (tname t1)
    = Some (interfaceContent (tname t1) (table_info db (tname t1))) /\
  JsMap.get (generateInterfaces db) (tname t2)
    = Some (interfaceContent (tname t2) (table_info db (tname t2))) /\
  (pascalCase (tname t1) = pascalCase (tname t2) ->
   exists header,
     header = "export interface " +:+ pascalCase (tname t1) +:+ " {" +:+ Js.nl /\
     In header (unitPieces (tname t1) (table_info db (tname t1))) /\
     In header (unitPieces (tname t2) (table_info db (tname t2)))).
Proof.
  intros H1 H2 _.
  split; [now apply generateInterfaces_get|].
  split; [now apply generateInterfaces_get|].
  intros Hsame. eexists. split; [reflexivity|]. split.
  - apply interface_header_piece.
  - rewrite Hsame. apply interface_header_piece.
Qed.

Lemma units_keyed_by_table_name_witness :
  In (mkTable "ab") (all_tables colliding) /\
  In (mkTable "ab_") (all_tables colliding) /\
  "ab" <> "ab_" /\
  JsMap.get (generateInterfaces colliding) "ab"
    = Some (interfaceContent "ab" (table_info colliding "ab")) /\
  JsMap.get (generateInterfaces colliding) "ab_"
    = Some (interfaceContent "ab_" (table_info colliding "ab_")).
Proof.
  assert (H1 : In (mkTable "ab") (all_tables colliding)) by (left; reflexivity).
  assert (H2 : In (mkTable "ab_") (all_tables colliding)) by (right; left; reflexivity).
  assert (Hne : "ab" <> "ab_") by discriminate.
  split; [exact H1|]. split; [exact H2|]. split; [exact Hne|].
  destruct (units_keyed_by_table_name colliding (mkTable "ab") (mkTable "ab_") H1 H2 Hne)
    as (Ha & Hb & _).
  split; [exact Ha | exact Hb].
Defined.

(* ===================================================================== *)
(** ** The type name of a table *)
(* ===================================================================== *)

Lemma join_empty_cons (w : string) (l : list string) :
  Js.join EmptyString (w :: l) = w +:+ Js.join EmptyString l.
Proof. destruct l; simpl; [now rewrite append_empty_r | reflexivity]. Qed.

Lemma join_empty_app (l1 l2 : list string) :
  Js.join EmptyString (l1 ++ l2) = Js.join EmptyString l1 +:+ Js.join EmptyString l2.
Proof.
  induction l1 as [|w l1 IH]; [reflexivity|].
  rewrite <- app_comm_cons, !join_empty_cons, IH. now rewrite append_assoc.
Qed.

(** X1: the type name of a table name with an underscore in it is the type
    name of what stands before the underscore followed by the type name of
    what stands after it.  An underscore at either end therefore leaves no
    trace: names that differ in such underscores share a type name. *)
Theorem pascalCase_underscore (a b : string) :
  pascalCase (a +:+ "_" +:+ b) = pascalCase a +:+ pascalCase b /\
  pascalCase (a +:+ "_") = pascalCase a /\
  pascalCase ("_" +:+ a) = pascalCase a.
Proof.
  assert (Hsplit : forall x y,
            pascalCase (x +:+ "_" +:+ y) = pascalCase x +:+ pascalCase y).
  { intros x y. unfold pascalCase.
    change ("_" +:+ y) with (String "_" y).
    now rewrite split_app_sep, map_app, join_empty_app. }
  split; [apply Hsplit|]. split.
  - rewrite <- (append_empty_r (a +:+ "_")), append_assoc, Hsplit.
    apply append_empty_r.
  - exact (Hsplit EmptyString a).
Qed.

Lemma split_map_chars (f : ascii -> ascii) (sep : ascii) (s : string) :
  (forall c, Ascii.eqb (f c) sep = Ascii.eqb c sep) ->
  Js.split sep (Js.map_chars f s) = map (Js.map_chars f) (Js.split sep s).
Proof.
  intros Hf. induction s as [|c s IH]; simpl; [reflexivity|].
  rewrite Hf, IH. destruct (Ascii.eqb c sep); [reflexivity|].
  pose proof (split_nonempty sep s) as Hne.
  destruct (Js.split sep s); [congruence | reflexivity].
Qed.

Lemma map_chars_compose (f g : ascii -> ascii) (s : string) :
  Js.map_chars f (Js.map_chars g s) = Js.map_chars (fun c => f (g c)) s.
Proof. induction s as [|c s IH]; simpl; [reflexivity | now rewrite IH]. Qed.

Lemma map_chars_ext (f g : ascii -> ascii) (s : string) :
  (forall c, f c = g c) -> Js.map_chars f s = Js.map_chars g s.
Proof. intros Hfg. induction s as [|c s IH]; simpl; [reflexivity | now rewrite Hfg, IH]. Qed.

Lemma upper_upper (c : ascii) : Js.upper_char (Js.upper_char c) = Js.upper_char c.
Proof. destruct c as [[] [] [] [] [] [] [] []]; reflexivity. Qed.
Lemma upper_lower (c : ascii) : Js.upper_char (Js.lower_char c) = Js.upper_char c.
Proof. destruct c as [[] [] [] [] [] [] [] []]; reflexivity. Qed.
Lemma lower_upper (c : ascii) : Js.lower_char (Js.upper_char c) = Js.lower_char c.
Proof. destruct c as [[] [] [] [] [] [] [] []]; reflexivity. Qed.
Lemma lower_lower (c : ascii) : Js.lower_char (Js.lower_char c) = Js.lower_char c.
Proof. destruct c as [[] [] [] [] [] [] [] []]; reflexivity. Qed.

(** Changing the case of a character neither makes nor unmakes one of the
    two separators of the source. *)
Lemma case_keeps_separator (sep : ascii) (c : ascii) :
  sep = "_"%char \/ sep = "("%char ->
  Ascii.eqb (Js.upper_char c) sep = Ascii.eqb c sep /\
  Ascii.eqb (Js.lower_char c) sep = Ascii.eqb c sep.
Proof.
  intros [-> | ->]; destruct c as [[] [] [] [] [] [] [] []]; split; reflexivity.
Qed.

Lemma capitalize_case (f : ascii -> ascii) (w : string) :
  (forall c, Js.upper_char (f c) = Js.upper_char c) ->
  (forall c, Js.lower_char (f c) = Js.lower_char c) ->
  capitalize (Js.map_chars f w) = capitalize w.
Proof.
  intros Hup Hlow. destruct w as [|c w]; [reflexivity|].
  unfold capitalize, Js.toUpperCase, Js.toLowerCase. simpl.
  rewrite Hup, map_chars_compose. f_equal. now apply map_chars_ext.
Qed.

(** X2: for a table name written in ASCII, the type name does not depend
    on the case of the name: the name in upper case and the name in lower
    case give the type name of the name as it is written. *)
Theorem pascalCase_ignores_case (s : string) :
  Js.isAscii s = true ->
  pascalCase (Js.toUpperCase s) = pascalCase s /\
  pascalCase (Js.toLowerCase s) = pascalCase s.
Proof.
  intros _. unfold pascalCase, Js.toUpperCase, Js.toLowerCase. split.
  - rewrite split_map_chars by (intros c; apply case_keeps_separator; now left).
    rewrite map_map. f_equal. apply map_ext. intros w.
    apply capitalize_case; [apply upper_upper | apply lower_upper].
  - rewrite split_map_chars by (intros c; apply case_keeps_separator; now left).
    rewrite map_map. f_equal. apply map_ext. intros w.
    apply capitalize_case; [apply upper_lower | apply lower_lower].
Qed.

Lemma pascalCase_ignores_case_witness :
  Js.isAscii "user_ROLES" = true /\
  pascalCase "USER_ROLES" = "UserRoles" /\
  pascalCase "user_roles" = "UserRoles".
Proof.
  assert (Hascii : Js.isAscii "user_ROLES" = true) by reflexivity.
  split; [exact Hascii|].
  destruct (pascalCase_ignores_case "user_ROLES" Hascii) as [Hupper Hlower].
  split; [exact Hupper | exact Hlower].
Defined.

Lemma count_app (c : ascii) (a b : string) :
  Js.count c (a +:+ b) = (Js.count c a + Js.count c b)%nat.
Proof. induction a as [|d a IH]; simpl; [reflexivity | rewrite IH; lia]. Qed.

Lemma count_map_chars (f : ascii -> ascii) (sep : ascii) (s : string) :
  (forall c, Ascii.eqb (f c) sep = Ascii.eqb c sep) ->
  Js.count sep (Js.map_chars f s) = Js.count sep s.
Proof. intros Hf. induction s as [|c s IH]; simpl; [reflexivity | now rewrite Hf, IH]. Qed.

Lemma count_split (sep : ascii) (s : string) :
  Forall (fun w => Js.count sep w = 0%nat) (Js.split sep s).
Proof.
  induction s as [|c s IH]; simpl; [repeat constructor|].
  destruct (Ascii.eqb c sep) eqn:Hc; [now constructor|].
  destruct (Js.split sep s) as [|w ws]; [repeat constructor; simpl; now rewrite Hc|].
  inversion IH as [|? ? Hw Hws]; subst.
  constructor; [simpl; now rewrite Hc, Hw | exact Hws].
Qed.

Lemma count_capitalize (w : string) :
  Js.count "_" (capitalize w) = Js.count "_" w.
Proof.
  unfold capitalize, Js.toUpperCase, Js.toLowerCase.
  rewrite count_app, !count_map_chars
    by (intros d; apply case_keeps_separator; now left).
  destruct w as [|c w]; simpl; [reflexivity | lia].
Qed.

(** X3: a type name holds no underscore, whatever the table name. *)
Theorem pascalCase_no_underscore (s : string) :
  Js.count "_" (pascalCase s) = 0%nat.
Proof.
  unfold pascalCase.
  pose proof (count_split "_" s) as Hfrag.
  induction Hfrag as [|w ws Hw _ IH]; [reflexivity|].
  cbn [map]. now rewrite join_empty_cons, count_app, IH, count_capitalize, Hw.
Qed.

(* ===================================================================== *)
(** ** The type mapper, further *)
(* ===================================================================== *)

Lemma baseType_case (f : ascii -> ascii) (s : string) :
  (forall c, Ascii.eqb (f c) "(" = Ascii.eqb c "(") ->
  (forall c, Js.upper_char (f c) = Js.upper_char c) ->
  baseType (Js.map_chars f s) = baseType s.
Proof.
  intros Hsep Hup. unfold baseType, Js.toUpperCase.
  rewrite split_map_chars by exact Hsep.
  pose proof (split_nonempty "(" s) as Hne.
  destruct (Js.split "(" s) as [|w ws]; [congruence|]. simpl.
  rewrite map_chars_compose. now apply map_chars_ext.
Qed.

(** X4: the mapped type does not depend on the case in which the storage
    type is written. *)
Theorem mapType_ignores_case (s : string) :
  mapSqliteTypeToTypescript (Js.toUpperCase s) = mapSqliteTypeToTypescript s /\
  mapSqliteTypeToTypescript (Js.toLowerCase s) = mapSqliteTypeToTypescript s.
Proof.
  unfold mapSqliteTypeToTypescript, Js.toUpperCase, Js.toLowerCase. split.
  - rewrite baseType_case; [reflexivity | | apply upper_upper].
    intros c. apply case_keeps_separator. now right.
  - rewrite baseType_case; [reflexivity | | apply upper_lower].
    intros c. apply case_keeps_separator. now right.
Qed.

(** X5: the mapper has five results and no other: the four scalar types
    of the table and the fallback.  No storage type is mapped to a boolean,
    a date or an empty type. *)
Theorem mapType_range (s : string) :
  In (mapSqliteTypeToTypescript s)
     ["number | bigint"; "number"; "string"; "Uint8Array"; "any"].
Proof.
  unfold mapSqliteTypeToTypescript.
  destruct (typeMap_get typeMap (baseType s)) as [v|] eqn:Hget;
    [|simpl; tauto].
  apply typeMap_get_Some in Hget. unfold typeMap in Hget.
  repeat (destruct Hget as [Hget|Hget];
          [injection Hget as _ <-; simpl; tauto|]).
  destruct Hget.
Qed.

(* ===================================================================== *)
(** ** The key rows, further *)
(* ===================================================================== *)

Lemma sort_by_pk_sorted_id (l : list ColumnInfo) :
  StronglySorted pk_le l -> sort_by_pk l = l.
Proof.
  induction 1 as [|c l Hs IH Hall]; [reflexivity|].
  simpl. rewrite IH. destruct l as [|d l]; [reflexivity|]. simpl.
  inversion Hall as [|? ? Hcd _]; subst. unfold pk_le in Hcd.
  destruct (Z.leb_spec (pk c - pk d) 0); [reflexivity | lia].
Qed.

(** X6: when the key columns stand in the table in the order of their
    ordinals, nothing is moved: the key rows are the rows with a positive
    ordinal as the table has them, so the key parameters follow the column
    order. *)
Theorem primaryKeys_in_column_order (columns : list ColumnInfo) :
  StronglySorted pk_le (List.filter (fun col => pk col >? 0) columns) ->
  primaryKeys columns = List.filter (fun col => pk col >? 0) columns /\
  sublist (primaryKeys columns) columns.
Proof.
  intros Hsorted. unfold primaryKeys.
  rewrite sort_by_pk_sorted_id by exact Hsorted.
  split; [reflexivity | apply filter_sublist].
Qed.

Lemma primaryKeys_in_column_order_witness :
  StronglySorted pk_le (List.filter (fun col => pk col >? 0) enrolments_columns) /\
  map name (primaryKeys enrolments_columns) = ["student_id"; "course_id"] /\
  sublist (primaryKeys enrolments_columns) enrolments_columns.
Proof.
  assert (Hsorted : StronglySorted pk_le
            (List.filter (fun col => pk col >? 0) enrolments_columns)).
  { simpl. repeat constructor. unfold pk_le. simpl. lia. }
  split; [exact Hsorted|].
  destruct (primaryKeys_in_column_order enrolments_columns Hsorted) as [Hkeys Hsub].
  split; [now rewrite Hkeys | exact Hsub].
Defined.

Lemma pk_injective_on (l : list ColumnInfo) (a b : ColumnInfo) :
  NoDup (map pk l) -> In a l -> In b l -> pk a = pk b -> a = b.
Proof.
  induction l as [|c l IH]; simpl; [tauto|].
  intros Hnd [->|Ha] [->|Hb] Heq; inversion Hnd as [|? ? Hnot Hnd']; subst.
  - reflexivity.
  - exfalso. apply Hnot. rewrite Heq. now apply list_elem_of_In, in_map.
  - exfalso. apply Hnot. rewrite <- Heq. now apply list_elem_of_In, in_map.
  - now apply IH.
Qed.

Lemma sorted_perm_unique (l l' : list ColumnInfo) :
  StronglySorted pk_le l -> StronglySorted pk_le l' ->
  Permutation l l' -> NoDup (map pk l) -> l = l'.
Proof.
  intros Hs. revert l'. induction Hs as [|a l Hs IH Ha]; intros l' Hs' Hperm Hnd.
  - now apply Permutation_nil in Hperm.
  - destruct Hs' as [|b l' Hs' Hb].
    + symmetry in Hperm. now apply Permutation_nil in Hperm.
    + assert (Hab : a = b).
      { assert (Hbin : In b (a :: l)).
        { apply list_elem_of_In. rewrite Hperm. now left. }
        assert (Hain : In a (b :: l')).
        { apply list_elem_of_In. rewrite <- Hperm. now left. }
        apply (pk_injective_on (a :: l)); [exact Hnd | now left | exact Hbin |].
        assert (pk a <= pk b).
        { destruct Hbin as [->|Hbin]; [lia|].
          rewrite Forall_forall in Ha. apply Ha, list_elem_of_In, Hbin. }
        assert (pk b <= pk a).
        { destruct Hain as [->|Hain]; [lia|].
          rewrite Forall_forall in Hb. apply Hb, list_elem_of_In, Hain. }
        lia. }
      subst b. f_equal. apply IH; [exact Hs' | | now inversion Hnd].
      now apply Permutation_cons_inv in Hperm.
Qed.

Lemma filter_perm {A : Type} (f : A -> bool) (l l' : list A) :
  Permutation l l' -> Permutation (List.filter f l) (List.filter f l').
Proof.
  induction 1 as [|x l l' _ IH|x y l|l l' l'' _ IH1 _ IH2]; simpl.
  - reflexivity.
  - destruct (f x); [now constructor | exact IH].
  - destruct (f x), (f y); try reflexivity. apply perm_swap.
  - now rewrite IH1.
Qed.

(** X7: when no two key columns share an ordinal, the key rows, and with
    them the key parameters and the WHERE clause of the three keyed
    functions, depend on the ordinals alone: listing the columns of the table
    in another order changes none of them. *)
Theorem primaryKeys_ignore_column_order (columns columns' : list ColumnInfo) :
  Permutation columns columns' ->
  NoDup (map pk (List.filter (fun col => pk col >? 0) columns)) ->
  primaryKeys columns = primaryKeys columns' /\
  pkParams columns = pkParams columns' /\
  pkWhere columns = pkWhere columns' /\
  pkArgs columns = pkArgs columns'.
Proof.
  intros Hperm Hnd.
  assert (Hsame : primaryKeys columns = primaryKeys columns').
  { apply sorted_perm_unique; try apply primaryKeys_sorted.
    - rewrite !primaryKeys_perm. now apply filter_perm.
    - rewrite (Permutation_map pk (primaryKeys_perm columns)). exact Hnd. }
  unfold pkParams, pkWhere, pkArgs, pkNames. now rewrite Hsame.
Qed.

Lemma primaryKeys_ignore_column_order_witness :
  Permutation memberships_columns (rev memberships_columns) /\
  NoDup (map pk (List.filter (fun col => pk col >? 0) memberships_columns)) /\
  pkWhere (rev memberships_columns) = "user_id = ? AND group_id = ?".
Proof.
  assert (Hperm : Permutation memberships_columns (rev memberships_columns))
    by apply Permutation_rev.
  assert (Hnd : NoDup (map pk (List.filter (fun col => pk col >? 0) memberships_columns))).
  { simpl. apply NoDup_cons_2; [|apply NoDup_cons_2; [|apply NoDup_nil_2]];
      rewrite list_elem_of_In; simpl; intros H;
      repeat (destruct H as [H|H]; [discriminate H|]); exact H. }
  split; [exact Hperm|]. split; [exact Hnd|].
  destruct (primaryKeys_ignore_column_order _ _ Hperm Hnd) as (_ & _ & <- & _).
  reflexivity.
Defined.

(* ===================================================================== *)
(** ** What a unit reads of the column rows *)
(* ===================================================================== *)

Lemma same_shape_filter (l l' : list ColumnInfo) :
  Forall2 same_shape l l' ->
  Forall2 same_shape (List.filter (fun col => pk col >? 0) l)
                     (List.filter (fun col => pk col >? 0) l').
Proof.
  induction 1 as [|c c' l l' Hc _ IH]; simpl; [constructor|].
  destruct Hc as (Hn & Ht & Hnn & Hpk). rewrite Hpk.
  destruct (pk c' >? 0); [|exact IH].
  constructor; [|exact IH]. unfold same_shape. tauto.
Qed.

Lemma same_shape_insert (c c' : ColumnInfo) (l l' : list ColumnInfo) :
  same_shape c c' -> Forall2 same_shape l l' ->
  Forall2 same_shape (insert_by_pk c l) (insert_by_pk c' l').
Proof.
  intros Hc. induction 1 as [|d d' l l' Hd Hl IH]; simpl.
  - constructor; [exact Hc | constructor].
  - assert (Hpc : pk c = pk c') by apply Hc.
    assert (Hpd : pk d = pk d') by apply Hd.
    rewrite Hpc, Hpd. destruct (pk c' - pk d' <=? 0).
    + constructor; [exact Hc|]. now constructor.
    + constructor; [exact Hd | exact IH].
Qed.

Lemma same_shape_primaryKeys (l l' : list ColumnInfo) :
  Forall2 same_shape l l' -> Forall2 same_shape (primaryKeys l) (primaryKeys l').
Proof.
  intros Hl. apply same_shape_filter in Hl. unfold primaryKeys.
  induction Hl as [|c c' l0 l0' Hc _ IH]; simpl; [constructor|].
  now apply same_shape_insert.
Qed.

Lemma same_shape_map {A : Type} (f : ColumnInfo -> A) (l l' : list ColumnInfo) :
  (forall c c', same_shape c c' -> f c = f c') ->
  Forall2 same_shape l l' -> map f l = map f l'.
Proof.
  intros Hf. induction 1 as [|c c' l l' Hc _ IH]; simpl; [reflexivity|].
  now rewrite (Hf c c' Hc), IH.
Qed.

Lemma same_shape_fieldLine (c c' : ColumnInfo) :
  same_shape c c' -> fieldLine c = fieldLine c'.
Proof.
  intros (Hn & Ht & Hnn & Hpk). unfold fieldLine, fieldType, nullSuffix, truthy.
  rewrite Hn, Ht, Hpk.
  destruct (Z.eqb_spec (notnull c) 0), (Z.eqb_spec (notnull c') 0);
    try reflexivity; tauto.
Qed.

(** X8: a unit and the statements of its functions read the name, the type,
    whether the NOT NULL flag is set, and the key ordinal of each column, and
    nothing else: rows that agree on these give the same unit text and the
    same statements, whatever their column id and their default value. *)
Theorem unit_ignores_cid_and_default (T : string) (columns columns' : list ColumnInfo)
    (keys : list value) (rec : gmap string value) :
  Forall2 same_shape columns columns' ->
  interfaceContent T columns = interfaceContent T columns' /\
  insert T columns rec = insert T columns' rec /\
  get T columns keys = get T columns' keys /\
  update T columns keys rec = update T columns' keys rec /\
  delete T columns keys = delete T columns' keys.
Proof.
  intros Hcols.
  pose proof (same_shape_primaryKeys _ _ Hcols) as Hkeys.
  assert (Hnames : columnNames columns = columnNames columns').
  { apply same_shape_map; [|exact Hcols]. intros c c' Hc. apply Hc. }
  assert (Hfields : map fieldLine columns = map fieldLine columns').
  { apply same_shape_map; [apply same_shape_fieldLine | exact Hcols]. }
  assert (HpkNames : pkNames columns = pkNames columns').
  { apply same_shape_map; [|exact Hkeys]. intros c c' Hc. apply Hc. }
  assert (HpkParams : pkParams columns = pkParams columns').
  { unfold pkParams. f_equal. apply same_shape_map; [|exact Hkeys].
    intros c c' (Hn & Ht & _). unfold pkParam. now rewrite Hn, Ht. }
  assert (HpkWhere : pkWhere columns = pkWhere columns').
  { unfold pkWhere. f_equal. apply same_shape_map; [|exact Hkeys].
    intros c c' (Hn & _). unfold pkCondition. now rewrite Hn. }
  assert (HpkArgs : pkArgs columns = pkArgs columns').
  { unfold pkArgs. now rewrite HpkNames. }
  assert (Hlen : length (primaryKeys columns) = length (primaryKeys columns')).
  { eapply Forall2_length. exact Hkeys. }
  assert (Hkeyed : keyedFunctions T columns = keyedFunctions T columns').
  { unfold keyedFunctions.
    destruct Hkeys as [|pk0 pk0' pks pks' (_ & Ht & _) _]; [reflexivity|].
    unfold getFunction, updateFunction, deleteFunction.
    now rewrite Hnames, HpkNames, HpkParams, HpkWhere, HpkArgs, Ht. }
  split; [|split; [|split; [|split]]].
  - unfold interfaceContent, unitPieces, interfaceDecl, insertFunction.
    now rewrite Hnames, Hfields, Hkeyed.
  - unfold insert, insertColumns. now rewrite Hnames.
  - unfold get, keyValues. now rewrite HpkWhere, Hlen.
  - unfold update, updateColumns, get, keyValues.
    now rewrite Hnames, HpkNames, HpkWhere, Hlen.
  - unfold delete, keyValues. now rewrite HpkWhere, Hlen.
Qed.

Lemma unit_ignores_cid_and_default_witness :
  let renumbered :=
    [ mkColumn 7 "role" "TEXT" 0 (Some "'guest'") 0;
      mkColumn 8 "group_id" "INTEGER" 5 None 2;
      mkColumn 9 "user_id" "INTEGER" 1 (Some "0") 1 ] in
  Forall2 same_shape memberships_columns renumbered /\
  interfaceContent "memberships" memberships_columns
    = interfaceContent "memberships" renumbered.
Proof.
  intros renumbered.
  assert (Hshape : Forall2 same_shape memberships_columns renumbered).
  { repeat constructor; simpl; intros H; discriminate H. }
  split; [exact Hshape|].
  exact (proj1 (unit_ignores_cid_and_default "memberships" _ _ [] ∅ Hshape)).
Defined.

(* ===================================================================== *)
(** ** The entries of the output mapping *)
(* ===================================================================== *)

Lemma JsMap_keys_set (m : JsMap.t) (k v : string) :
  JsMap.keys (JsMap.set m k v) =
    if includes (JsMap.keys m) k then JsMap.keys m else JsMap.keys m ++ [k].
Proof.
  induction m as [|[k' v'] m IH]; [reflexivity|].
  unfold JsMap.keys, includes in *. simpl.
  rewrite (String.eqb_sym k k').
  destruct (String.eqb_spec k' k) as [->|Hne]; simpl; [reflexivity|].
  rewrite IH. now destruct (existsb (String.eqb k) (map fst m)).
Qed.

Lemma includes_false (names : list string) (col : string) :
  includes names col = false <-> ~ In col names.
Proof. rewrite <- includes_In. now destruct (includes names col). Qed.

Lemma JsMap_get_None (m : JsMap.t) (k : string) :
  JsMap.get m k = None <-> ~ In k (JsMap.keys m).
Proof.
  induction m as [|[k' v'] m IH]; simpl; [tauto|].
  destruct (String.eqb_spec k' k) as [->|Hne].
  - split; [discriminate | intros Hnot; exfalso; apply Hnot; now left].
  - rewrite IH. unfold JsMap.keys. simpl. tauto.
Qed.

Lemma stored_keys (db : Database) (tables : list TableInfo) (m : JsMap.t) :
  List.NoDup (JsMap.keys m ++ map tname tables) ->
  JsMap.keys (fold_left (store db) tables m) = JsMap.keys m ++ map tname tables.
Proof.
  revert m. induction tables as [|t tables IH]; intros m Hnd; simpl.
  - now rewrite app_nil_r.
  - assert (Hfresh : ~ In (tname t) (JsMap.keys m)).
    { intros Hin. apply List.NoDup_remove_2 in Hnd. apply Hnd.
      apply in_or_app. now left. }
    assert (Hkeys : JsMap.keys (store db m t) = JsMap.keys m ++ [tname t]).
    { unfold store. rewrite JsMap_keys_set.
      now rewrite (proj2 (includes_false _ _) Hfresh). }
    rewrite IH; rewrite Hkeys, <- app_assoc; [reflexivity|exact Hnd].
Qed.

Lemma stored_keys_incl (db : Database) (tables : list TableInfo) (m : JsMap.t) (k : string) :
  In k (JsMap.keys (fold_left (store db) tables m)) <->
  In k (JsMap.keys m) \/ In k (map tname tables).
Proof.
  revert m. induction tables as [|t tables IH]; intros m; simpl; [tauto|].
  rewrite IH. unfold store. rewrite JsMap_keys_set.
  destruct (includes (JsMap.keys m) (tname t)) eqn:Hin.
  - apply includes_In in Hin. split; [tauto|].
    intros [?|[<-|?]]; tauto.
  - rewrite in_app_iff. simpl. tauto.
Qed.

(** X9: when the catalogue lists no table name twice, the mapping has one
    entry per table, in the order of the catalogue, and the manifest has one
    re-export line per table in that order. *)
Theorem units_in_catalogue_order (db : Database) :
  List.NoDup (map tname (all_tables db)) ->
  JsMap.keys (generateInterfaces db) = map tname (all_tables db) /\
  length (generateInterfaces db) = length (all_tables db) /\
  indexContent (generateInterfaces db) =
    Js.join Js.nl
      (map (fun t => "export * from './" +:+ tname t +:+ "';") (all_tables db)).
Proof.
  intros Hnd.
  assert (Hkeys : JsMap.keys (generateInterfaces db) = map tname (all_tables db)).
  { exact (stored_keys db (all_tables db) JsMap.empty Hnd). }
  split; [exact Hkeys|]. split.
  - apply (f_equal (@length string)) in Hkeys.
    unfold JsMap.keys in Hkeys. now rewrite !length_map in Hkeys.
  - unfold indexContent. now rewrite Hkeys, map_map.
Qed.

Lemma units_in_catalogue_order_witness :
  List.NoDup (map tname (all_tables colliding)) /\
  JsMap.keys (generateInterfaces colliding) = ["ab"; "ab_"].
Proof.
  assert (Hnd : List.NoDup (map tname (all_tables colliding))).
  { simpl. repeat constructor; simpl; intros H;
      repeat (destruct H as [H|H]; [discriminate H|]); exact H. }
  split; [exact Hnd|].
  exact (proj1 (units_in_catalogue_order colliding Hnd)).
Defined.

(** X10: the mapping has an entry for a name exactly when the catalogue
    lists a table of that name: looking up any other name finds nothing, and
    a listed name finds the unit of that table. *)
Theorem units_exactly_for_tables (db : Database) (k : string) :
  (In k (map tname (all_tables db)) ->
     JsMap.get (generateInterfaces db) k
       = Some (interfaceContent k (table_info db k))) /\
  (~ In k (map tname (all_tables db)) ->
     JsMap.get (generateInterfaces db) k = None).
Proof.
  split.
  - intros Hin. apply (stored_units db (all_tables db) JsMap.empty). now left.
  - intros Hnot. apply JsMap_get_None. intros Hin.
    apply (stored_keys_incl db (all_tables db) JsMap.empty) in Hin.
    destruct Hin as [[]|Hin]. now apply Hnot.
Qed.

(* ===================================================================== *)
(** ** The generated functions, further *)
(* ===================================================================== *)







Lemma count_join_none (c : ascii) (sep : string) (l : list string) :
  Js.count c sep = 0%nat ->
  Forall (fun w => Js.count c w = 0%nat) l ->
  Js.count c (Js.join sep l) = 0%nat.
Proof.
  intros Hsep. induction 1 as [|w l Hw Hl IH]; [reflexivity|].
  unfold Js.join in *. simpl. destruct l as [|w' l']; [exact Hw|].
  rewrite !count_app, Hw, Hsep. exact IH.
Qed.

Lemma count_join_each (c : ascii) (sep : string) (l : list string) :
  Js.count c sep = 0%nat ->
  Forall (fun w => Js.count c w = 1%nat) l ->
  Js.count c (Js.join sep l) = length l.
Proof.
  intros Hsep. induction 1 as [|w l Hw Hl IH]; [reflexivity|].
  unfold Js.join in *. simpl. destruct l as [|w' l']; [exact Hw|].
  rewrite !count_app, Hw, Hsep, IH. reflexivity.
Qed.

Section Placeholders.

Variable T : string.
Variable columns : list ColumnInfo.
Hypothesis T_plain : Js.count "?" T = 0%nat.
Hypothesis names_plain : forall c, In c columns -> Js.count "?" (name c) = 0%nat.

Lemma column_name_plain (col : string) :
  In col (map name columns) -> Js.count "?" col = 0%nat.
Proof. intros (c & <- & Hc)%in_map_iff. now apply names_plain. Qed.

Lemma pkWhere_placeholders :
  Js.count "?" (pkWhere columns) = length (primaryKeys columns).
Proof.
  unfold pkWhere. rewrite count_join_each; [apply length_map | reflexivity |].
  apply Forall_map, Forall_forall. intros c Hc%list_elem_of_In.
  unfold pkCondition. rewrite count_app, names_plain; [reflexivity|].
  now apply primaryKeys_In in Hc.
Qed.

Lemma insert_placeholders (rec : gmap string value) :
  Js.count "?" (sql (insert T columns rec)) = length (bound (insert T columns rec)).
Proof.
  assert (Hnames : Js.count "?" (Js.join ", " (insertColumns columns rec)) = 0%nat).
  { apply count_join_none; [reflexivity|].
    apply Forall_forall. intros col Hin%list_elem_of_In.
    apply column_name_plain. unfold insertColumns in Hin.
    now apply List.filter_In in Hin. }
  assert (Hmarks : Js.count "?"
            (Js.join ", " (map (fun _ : string => "?") (insertColumns columns rec)))
            = length (insertColumns columns rec)).
  { rewrite count_join_each; [apply length_map | reflexivity |].
    apply Forall_map, Forall_forall. reflexivity. }
  unfold insert. cbn [sql bound].
  rewrite !count_app, T_plain, Hnames, Hmarks, length_map. simpl. lia.
Qed.

Lemma get_placeholders (keys : list value) :
  Js.count "?" (sql (get T columns keys)) = length (bound (get T columns keys)).
Proof.
  unfold get, keyValues. cbn [sql bound].
  rewrite !count_app, T_plain, pkWhere_placeholders, parameters_length.
  simpl. lia.
Qed.

Lemma update_placeholders (keys : list value) (rec : gmap string value) :
  Js.count "?" (sql (update T columns keys rec))
    = length (bound (update T columns keys rec)).
Proof.
  unfold update. destruct (length (updateColumns columns rec) =? 0)%nat;
    [apply get_placeholders|].
  assert (Hset : Js.count "?"
            (Js.join ", " (map (fun col => col +:+ " = ?") (updateColumns columns rec)))
            = length (updateColumns columns rec)).
  { rewrite count_join_each; [apply length_map | reflexivity |].
    apply Forall_map, Forall_forall. intros col Hin%list_elem_of_In.
    rewrite count_app, column_name_plain; [reflexivity|].
    unfold updateColumns in Hin. now apply List.filter_In in Hin. }
  unfold keyValues. cbn [sql bound].
  rewrite !count_app, T_plain, pkWhere_placeholders, Hset.
  rewrite length_app, length_map, parameters_length. simpl. lia.
Qed.

End Placeholders.

(** X12: when neither the table name nor a column name holds a question
    mark, every statement the generated functions prepare has as many
    placeholders as it binds values: create, read-all, get, update (both
    when it updates and when it falls back to get) and delete. *)
Theorem placeholders_match_bound_values (T : string) (columns : list ColumnInfo)
    (keys : list value) (rec : gmap string value) :
  Js.count "?" T = 0%nat ->
  (forall c, In c columns -> Js.count "?" (name c) = 0%nat) ->
  Forall (fun st => Js.count "?" (sql st) = length (bound st))
    [ insert T columns rec; getAll T; get T columns keys;
      update T columns keys rec; delete T columns keys ].
Proof.
  intros HT Hnames. repeat constructor.
  - now apply insert_placeholders.
  - unfold getAll. cbn [sql bound]. now rewrite count_app, HT.
  - now apply get_placeholders.
  - now apply update_placeholders.
  - unfold delete, keyValues. cbn [sql bound].
    rewrite !count_app, HT, pkWhere_placeholders, parameters_length by assumption.
    simpl. lia.
Qed.

Lemma placeholders_match_bound_values_witness :
  Js.count "?" "users" = 0%nat /\
  (forall c, In c users_columns -> Js.count "?" (name c) = 0%nat) /\
  Js.count "?" (sql (update "users" users_columns [VNumber 7]
                       {[ "email" := VString "b@x.org" ]})) = 2%nat.
Proof.
  assert (HT : Js.count "?" "users" = 0%nat) by reflexivity.
  assert (Hnames : forall c, In c users_columns -> Js.count "?" (name c) = 0%nat).
  { intros c Hin. unfold users_columns in Hin.
    repeat (destruct Hin as [<-|Hin]; [reflexivity|]). destruct Hin. }
  split; [exact HT|]. split; [exact Hnames|].
  pose proof (placeholders_match_bound_values "users" users_columns [VNumber 7]
                {[ "email" := VString "b@x.org" ]} HT Hnames) as Hall.
  rewrite Forall_forall in Hall.
  rewrite (Hall (update "users" users_columns [VNumber 7] {[ "email" := VString "b@x.org" ]})).
  - reflexivity.
  - apply list_elem_of_In. simpl. tauto.
Defined.

(* ===================================================================== *)
(** ** [parseArgs] *)
(* ===================================================================== *)

Lemma flag_is_not_help (k : string) :
  k <> "help" -> String.eqb ("--" +:+ k) "--help" = false.
Proof.
  intros Hk. apply String.eqb_neq. intros Heq. apply Hk.
  now apply (inj (String.append "--")) in Heq.
Qed.

Lemma flag_startsWith (k : string) : Js.startsWith "--" ("--" +:+ k) = true.
Proof. unfold Js.startsWith. simpl. now destruct k. Qed.

Lemma startsWith_flag (a : string) :
  Js.startsWith "--" a = true -> a = "--" +:+ Js.sliceFrom 2 a.
Proof.
  unfold Js.startsWith. intros H. apply String.prefix_correct in H.
  destruct a as [|c1 [|c2 a]]; simpl in H; try discriminate H.
  assert (Hnone : String.substring 0 0 a = EmptyString) by now destruct a.
  rewrite Hnone in H. now injection H as -> ->.
Qed.

Lemma parseArgs_flag (k v : string) (rest : list string) (acc : gmap string string) :
  k <> "help" ->
  parseArgs_from (("--" +:+ k) :: v :: rest) acc = parseArgs_from rest (obj_set acc k v).
Proof.
  intros Hk. cbn [parseArgs_from].
  now rewrite (flag_is_not_help k Hk), flag_startsWith.
Qed.

(** The flags of a command line, taken one after the other. *)
Lemma parseArgs_flags (flags : list (string * string)) (rest : list string)
    (acc : gmap string string) :
  Forall (fun kv => fst kv <> "help") flags ->
  parseArgs_from (flagArgs flags ++ rest) acc =
    parseArgs_from rest (fold_left (fun o kv => obj_set o (fst kv) (snd kv)) flags acc).
Proof.
  intros Hflags. revert acc.
  induction Hflags as [|[k v] flags Hk _ IH]; intros acc; [reflexivity|].
  unfold flagArgs in *. cbn [flat_map fst snd app fold_left] in *.
  now rewrite parseArgs_flag, IH.
Qed.

Lemma obj_set_lookup_ne (o : gmap string string) (k k' v : string) :
  k <> k' -> obj_set o k v !! k' = o !! k'.
Proof.
  intros Hne. unfold obj_set. destruct (String.eqb k "__proto__"); [reflexivity|].
  now apply lookup_insert_ne.
Qed.

Lemma obj_set_lookup_eq (o : gmap string string) (k v : string) :
  k <> "__proto__" -> obj_set o k v !! k = Some v.
Proof.
  intros Hk. unfold obj_set.
  destruct (String.eqb_spec k "__proto__"); [contradiction|].
  apply lookup_insert_eq.
Qed.

Lemma fold_obj_set_other (flags : list (string * string)) (acc : gmap string string)
    (k : string) :
  ~ In k (map fst flags) ->
  fold_left (fun o kv => obj_set o (fst kv) (snd kv)) flags acc !! k = acc !! k.
Proof.
  revert acc. induction flags as [|[k' v'] flags IH]; intros acc Hnot; [reflexivity|].
  simpl in *. rewrite IH by tauto. apply obj_set_lookup_ne. tauto.
Qed.

Lemma obj_set_proto (o : gmap string string) (k v : string) :
  obj_set o k v !! "__proto__" = o !! "__proto__".
Proof.
  unfold obj_set. destruct (String.eqb_spec k "__proto__") as [_|Hne]; [reflexivity|].
  now apply lookup_insert_ne.
Qed.

Lemma fold_obj_set_proto (flags : list (string * string)) (acc : gmap string string) :
  fold_left (fun o kv => obj_set o (fst kv) (snd kv)) flags acc !! "__proto__"
    = acc !! "__proto__".
Proof.
  revert acc. induction flags as [|[k v] flags IH]; intros acc; [reflexivity|].
  simpl. rewrite IH. apply obj_set_proto.
Qed.

(** X13: on a command line made of flags, each followed by its value, the
    parsed object holds as its own property, for every flag other than
    [--help] and [--__proto__], the value that follows the last occurrence
    of the flag, whatever that value is (another flag, or [--help] itself,
    is a value there).  A flag [--__proto__] takes its value and stores
    nothing: the result is that of the line without it, and the parsed
    object never gets an own property of that name.  A name that is no flag
    of the line is no own property of the result. *)
Theorem parseArgs_flag_values (before after : list (string * string)) (k v name' : string) :
  Forall (fun kv => fst kv <> "help") (before ++ (k, v) :: after) ->
  ~ In k (map fst after) ->
  let parsedArgs := parseArgs (flagArgs (before ++ (k, v) :: after)) in
  (k <> "__proto__" -> parsedArgs !! k = Some v) /\
  (k = "__proto__" -> parsedArgs = parseArgs (flagArgs (before ++ after))) /\
  parsedArgs !! "__proto__" = None /\
  (~ In name' (map fst (before ++ (k, v) :: after)) -> parsedArgs !! name' = None).
Proof.
  intros Hflags Hlast parsedArgs. unfold parsedArgs, parseArgs.
  rewrite <- (app_nil_r (flagArgs (before ++ (k, v) :: after))).
  rewrite parseArgs_flags by exact Hflags.
  cbn [parseArgs_from]. split; [|split; [|split]].
  - intros Hk. rewrite fold_left_app. cbn [fold_left fst snd].
    rewrite fold_obj_set_other by exact Hlast. now apply obj_set_lookup_eq.
  - intros ->.
    assert (Hrest : Forall (fun kv : string * string => fst kv <> "help") (before ++ after)).
    { apply Forall_app in Hflags as [Hb Ha]. apply Forall_app. split; [exact Hb|].
      now inversion Ha. }
    rewrite <- (app_nil_r (flagArgs (before ++ after))).
    rewrite parseArgs_flags by exact Hrest.
    cbn [parseArgs_from]. rewrite !fold_left_app. reflexivity.
  - rewrite fold_obj_set_proto. apply lookup_empty.
  - intros Hnot. now rewrite fold_obj_set_other.
Qed.

Lemma parseArgs_flag_values_witness :
  Forall (fun kv => fst kv <> "help")
    ([("schema-file", "a.sql")] ++ ("__proto__", "x") :: [("output-dir", "--help")]) /\
  ~ In "__proto__" (map fst [("output-dir", "--help")]) /\
  parseArgs ["--schema-file"; "a.sql"; "--__proto__"; "x"; "--output-dir"; "--help"]
    = parseArgs ["--schema-file"; "a.sql"; "--output-dir"; "--help"] /\
  parseArgs ["--schema-file"; "a.sql"; "--__proto__"; "x"; "--output-dir"; "--help"]
    !! "__proto__" = None.
Proof.
  assert (Hflags : Forall (fun kv => fst kv <> "help")
            ([("schema-file", "a.sql")] ++ ("__proto__", "x")
               :: [("output-dir", "--help")])).
  { repeat constructor; discriminate. }
  assert (Hlast : ~ In "__proto__" (map fst [("output-dir", "--help")])).
  { simpl. intros [H|H]; [discriminate H | exact H]. }
  split; [exact Hflags|]. split; [exact Hlast|].
  destruct (parseArgs_flag_values _ _ _ _ EmptyString Hflags Hlast)
    as (_ & Hdrop & Hproto & _).
  split; [exact (Hdrop eq_refl) | exact Hproto].
Defined.

(** X14: [--help] where a flag is expected ends the parsing: the flags
    before it keep their values, [help] is set, and nothing that follows is
    looked at. *)
Theorem parseArgs_help_stops (flags : list (string * string)) (rest : list string) :
  Forall (fun kv => fst kv <> "help") flags ->
  parseArgs (flagArgs flags ++ "--help" :: rest)
    = <["help" := "true"]> (parseArgs (flagArgs flags)) /\
  given (parseArgs (flagArgs flags ++ "--help" :: rest) !! "help") = true.
Proof.
  intros Hflags. unfold parseArgs.
  rewrite parseArgs_flags by exact Hflags.
  rewrite <- (app_nil_r (flagArgs flags)).
  rewrite parseArgs_flags by exact Hflags.
  cbn [parseArgs_from]. split; [reflexivity|].
  now rewrite String.eqb_refl, obj_set_lookup_eq.
Qed.

Lemma parseArgs_help_stops_witness :
  Forall (fun kv => fst kv <> "help") [("output-dir", "out")] /\
  parseArgs ["--output-dir"; "out"; "--help"; "--schema-file"; "a.sql"]
    = {[ "help" := "true"; "output-dir" := "out" ]}.
Proof.
  assert (Hflags : Forall (fun kv => fst kv <> "help") [("output-dir", "out")]).
  { repeat constructor; discriminate. }
  split; [exact Hflags|].
  etransitivity;
    [exact (proj1 (parseArgs_help_stops [("output-dir", "out")]
                     ["--schema-file"; "a.sql"] Hflags))|].
  reflexivity.
Defined.

Lemma nonflag_is_not_help (a : string) :
  Js.startsWith "--" a = false -> String.eqb a "--help" = false.
Proof.
  intros Hno. apply String.eqb_neq. intros ->. discriminate Hno.
Qed.

(** X15: an argument that does not begin with two dashes is skipped where a
    flag is expected, and a last argument that is not [--help] is dropped,
    flag or not: a flag without a value sets nothing. *)
Theorem parseArgs_skips (positional rest : list string) (flags : list (string * string))
    (last : string) :
  Forall (fun a => Js.startsWith "--" a = false) positional ->
  Forall (fun kv => fst kv <> "help") flags ->
  last <> "--help" ->
  parseArgs (positional ++ rest) = parseArgs rest /\
  parseArgs (flagArgs flags ++ positional ++ [last]) = parseArgs (flagArgs flags).
Proof.
  intros Hpos Hflags Hlast.
  assert (Hskip : forall rest acc,
            parseArgs_from (positional ++ rest) acc = parseArgs_from rest acc).
  { intros rest0. induction Hpos as [|a pos Ha _ IH]; intros acc; [reflexivity|].
    rewrite <- app_comm_cons. cbn [parseArgs_from].
    rewrite (nonflag_is_not_help a Ha), Ha.
    destruct (pos ++ rest0) as [|next rest'] eqn:Heq.
    - now rewrite <- (IH acc).
    - apply IH. }
  split; [apply Hskip|].
  unfold parseArgs. rewrite parseArgs_flags, Hskip by exact Hflags.
  rewrite <- (app_nil_r (flagArgs flags)).
  rewrite parseArgs_flags by exact Hflags.
  cbn [parseArgs_from]. destruct (String.eqb_spec last "--help"); [contradiction | reflexivity].
Qed.

Lemma parseArgs_skips_witness :
  Forall (fun a => Js.startsWith "--" a = false) ["now"; "-v"] /\
  Forall (fun kv => fst kv <> "help") [("output-dir", "out")] /\
  "--schema-file" <> "--help" /\
  parseArgs ["--output-dir"; "out"; "now"; "-v"; "--schema-file"]
    = {[ "output-dir" := "out" ]}.
Proof.
  assert (Hpos : Forall (fun a => Js.startsWith "--" a = false) ["now"; "-v"]).
  { repeat constructor. }
  assert (Hflags : Forall (fun kv => fst kv <> "help") [("output-dir", "out")]).
  { repeat constructor; discriminate. }
  assert (Hlast : "--schema-file" <> "--help") by discriminate.
  split; [exact Hpos|]. split; [exact Hflags|]. split; [exact Hlast|].
  etransitivity;
    [exact (proj2 (parseArgs_skips ["now"; "-v"] [] [("output-dir", "out")]
                     "--schema-file" Hpos Hflags Hlast))|].
  reflexivity.
Defined.

Lemma parseArgs_from_help (n : nat) (args : list string) (acc : gmap string string)
    (v : string) :
  (length args <= n)%nat ->
  parseArgs_from args acc !! "help" = Some v ->
  acc !! "help" = Some v \/ (v = "true" /\ In "--help" args).
Proof.
  revert args acc. induction n as [|n IH]; intros args acc Hlen Hhelp.
  - destruct args; [now left | simpl in Hlen; lia].
  - destruct args as [|a rest]; [now left|]. cbn [parseArgs_from] in Hhelp.
    destruct (String.eqb_spec a "--help") as [->|Hne].
    + rewrite obj_set_lookup_eq in Hhelp by discriminate.
      right. split; [congruence | now left].
    + destruct rest as [|next rest']; [now left|].
      destruct (Js.startsWith "--" a) eqn:Hflag.
      * apply IH in Hhelp; [|simpl in *; lia].
        destruct Hhelp as [Hacc|[-> Hin]]; [|right; split; [reflexivity|now do 2 right]].
        left. rewrite obj_set_lookup_ne in Hacc; [exact Hacc|].
        intros Hkey. apply Hne. rewrite (startsWith_flag a Hflag), Hkey. reflexivity.
      * apply IH in Hhelp; [|simpl in *; lia].
        destruct Hhelp as [Hacc|[-> Hin]]; [now left|].
        right. split; [reflexivity | now right].
Qed.

(** X16: [help] is set by the argument [--help] and by nothing else: when
    the parsed arguments hold [help], its value is [true] and [--help] is
    among the arguments; no flag with a value can set it. *)
Theorem parseArgs_help_only_from_help (args : list string) (v : string) :
  parseArgs args !! "help" = Some v ->
  v = "true" /\ In "--help" args.
Proof.
  intros Hhelp.
  destruct (parseArgs_from_help (length args) args ∅ v (Nat.le_refl _) Hhelp)
    as [Hempty|Hfound]; [|exact Hfound].
  rewrite lookup_empty in Hempty. discriminate Hempty.
Qed.

Lemma parseArgs_help_only_from_help_witness :
  parseArgs ["--help"; "x"] !! "help" = Some "true" /\
  In "--help" ["--help"; "x"].
Proof.
  assert (Hhelp : parseArgs ["--help"; "x"] !! "help" = Some "true") by reflexivity.
  split; [exact Hhelp|].
  exact (proj2 (parseArgs_help_only_from_help ["--help"; "x"] "true" Hhelp)).
Defined.

(* ===================================================================== *)
(** ** [generateFiles] *)
(* ===================================================================== *)

Lemma bind_events {A B : Type} (m : Action A) (k : A -> Action B) :
  bind m k =
    match snd m with
    | Some a => (fst m ++ fst (k a), snd (k a))
    | None => (fst m, None)
    end.
Proof. destruct m as [events [a|]]; simpl; [now destruct (k a) | reflexivity]. Qed.


Lemma writeUnits_stops (host : Host) (dir : string)
    (before after : list (string * string)) (t c : string) :
  (forall entry, In entry before ->
     canWrite host (path_join host dir (fst entry +:+ ".ts")) = true) ->
  canWrite host (path_join host dir (t +:+ ".ts")) = false ->
  writeUnits host dir (before ++ (t, c) :: after)
    = (flat_map (unit_written host dir) before, None).
Proof.
  intros Hcan Hfail. induction before as [|[t' c'] before IH].
  - cbn [app writeUnits]. unfold mbind, action_bind, writeFileSync.
    now rewrite Hfail.
  - cbn [app writeUnits flat_map]. unfold mbind, action_bind, writeFileSync.
    pose proof (Hcan (t', c') (or_introl eq_refl)) as Hfirst. cbn [fst] in Hfirst.
    rewrite Hfirst.
    rewrite IH by (intros e He; apply Hcan; now right). reflexivity.
Qed.

Lemma written_app (events events' : list event) :
  written (events ++ events') = fold_left record_event events' (written events).
Proof. unfold written. apply fold_left_app. Qed.




Lemma unit_events_writes (host : Host) (dir : string) (entries : list (string * string))
    (p c : string) :
  In (WriteFile p c) (flat_map (unit_written host dir) entries) ->
  exists t, In (t, c) entries /\ p = path_join host dir (t +:+ ".ts").
Proof.
  intros Hin. apply in_flat_map in Hin as ([t c'] & Hentry & He).
  destruct He as [He|[He|[]]]; [|discriminate He].
  injection He as <- <-. now exists t.
Qed.



(** X18: when the write of a unit fails after the writes of the units
    before it went through, [generateFiles] throws: neither that unit, nor a
    later one, nor the manifest is written.  When the output directory is
    there or can be made, the run throws at that write: the directory is
    made if it was missing, and the units before the failing one are
    written and reported.  When the directory is missing and cannot be made,
    the run throws before anything is written. *)
Theorem generateFiles_stops_at_failed_write (host : Host) (dir : string)
    (before after : list (string * string)) (t c : string) :
  (forall entry, In entry before ->
     canWrite host (path_join host dir (fst entry +:+ ".ts")) = true) ->
  canWrite host (path_join host dir (t +:+ ".ts")) = false ->
  let run := generateFiles host dir (before ++ (t, c) :: after) in
  snd run = None /\
  (forall p content, In (WriteFile p content) (fst run) ->
     exists t', In (t', content) before /\ p = path_join host dir (t' +:+ ".ts")) /\
  (existsSync host dir = true -> fst run = flat_map (unit_written host dir) before) /\
  (existsSync host dir = false -> canMkdir host dir = true ->
   fst run = Mkdir dir true :: flat_map (unit_written host dir) before) /\
  (existsSync host dir = false -> canMkdir host dir = false -> fst run = []).
Proof.
  intros Hcan Hfail run.
  assert (Hrun : run =
            if existsSync host dir then (flat_map (unit_written host dir) before, None)
            else if canMkdir host dir
                 then (Mkdir dir true :: flat_map (unit_written host dir) before, None)
                 else ([], None)).
  { unfold run, generateFiles, mbind, action_bind, mkdirSync.
    rewrite (writeUnits_stops host dir before after t c Hcan Hfail).
    destruct (existsSync host dir); [reflexivity|].
    destruct (canMkdir host dir); reflexivity. }
  rewrite Hrun.
  destruct (existsSync host dir); [|destruct (canMkdir host dir)]; cbn [fst snd];
    (split; [reflexivity|]); (split; [|repeat split; congruence]).
  - intros p content Hin. now apply unit_events_writes in Hin.
  - intros p content [Hin|Hin]; [discriminate Hin|].
    now apply unit_events_writes in Hin.
  - intros p content [].
Qed.

(** A directory that is made, and a disk that refuses the second unit. *)
Lemma generateFiles_stops_at_failed_write_witness :
  let host := mkHost (fun dir file => dir +:+ "/" +:+ file) (fun _ => None)
                (fun _ => true) (fun _ => false) (fun _ => true)
                (fun path => negb (String.eqb path "out/b.ts")) in
  (forall entry, In entry [("a", "A")] ->
     canWrite host (path_join host "out" (fst entry +:+ ".ts")) = true) /\
  canWrite host (path_join host "out" ("b" +:+ ".ts")) = false /\
  generateFiles host "out" ([("a", "A")] ++ ("b", "B") :: [("c", "C")])
    = ([Mkdir "out" true; WriteFile "out/a.ts" "A"; ConsoleLog "Generated a.ts"], None).
Proof.
  intros host.
  assert (Hcan : forall entry, In entry [("a", "A")] ->
            canWrite host (path_join host "out" (fst entry +:+ ".ts")) = true).
  { intros entry [<-|[]]. reflexivity. }
  assert (Hfail : canWrite host (path_join host "out" ("b" +:+ ".ts")) = false)
    by reflexivity.
  split; [exact Hcan|]. split; [exact Hfail|].
  destruct (generateFiles_stops_at_failed_write host "out" [("a", "A")] [("c", "C")]
              "b" "B" Hcan Hfail) as (Hnone & _ & _ & Hmade & _).
  specialize (Hmade eq_refl eq_refl).
  destruct (generateFiles host "out" ([("a", "A")] ++ ("b", "B") :: [("c", "C")]))
    as [events result].
  cbn [fst snd] in Hnone, Hmade. now rewrite Hnone, Hmade.
Defined.

(* ===================================================================== *)
(** ** [main] *)
(* ===================================================================== *)

Lemma writeUnits_events (host : Host) (dir : string) (entries : list (string * string))
    (e : event) :
  In e (fst (writeUnits host dir entries)) ->
  (exists t c, In (t, c) entries /\ e = WriteFile (path_join host dir (t +:+ ".ts")) c) \/
  (exists text, e = ConsoleLog text).
Proof.
  induction entries as [|[t c] entries IH]; [intros []|].
  cbn [writeUnits]. unfold mbind, action_bind, writeFileSync.
  destruct (canWrite host (path_join host dir (t +:+ ".ts"))); [|intros []].
  rewrite !bind_events. cbn [fst snd emit app].
  destruct (writeUnits host dir entries) as [events result]. cbn [fst snd] in *.
  intros [<-|[<-|Hin]].
  - left. exists t, c. split; [now left | reflexivity].
  - right. eauto.
  - destruct result; cbn [fst] in Hin; rewrite ?app_nil_r in Hin;
      (destruct (IH Hin) as [(t' & c' & Hin' & ->)|Hlog];
       [left; exists t', c'; split; [now right | reflexivity] | now right]).
Qed.

Ltac split_membership :=
  repeat match goal with
  | H : In _ (_ ++ _) |- _ => apply in_app_or in H
  | H : _ \/ _ |- _ => destruct H as [H|H]
  | H : In _ (_ :: _) |- _ => destruct H as [H|H]
  | H : In _ [] |- _ => destruct H
  end.

Lemma generateFiles_events (host : Host) (dir : string) (interfaces : JsMap.t)
    (e : event) :
  In e (fst (generateFiles host dir interfaces)) ->
  (e = Mkdir dir true /\ existsSync host dir = false) \/
  (exists t c, In (t, c) interfaces /\ e = WriteFile (path_join host dir (t +:+ ".ts")) c) \/
  e = WriteFile (path_join host dir "index.ts") (indexContent interfaces) \/
  (exists text, e = ConsoleLog text).
Proof.
  pose proof (writeUnits_events host dir interfaces e) as Hunits.
  unfold generateFiles, mbind, action_bind, mkdirSync, writeFileSync.
  destruct (existsSync host dir) eqn:Hex; [|destruct (canMkdir host dir)];
    destruct (writeUnits host dir interfaces) as [events [[]|]];
    destruct (canWrite host (path_join host dir "index.ts"));
    cbn [bind ret emit throw fst snd app] in *; intros Hin; split_membership;
    try (subst e; now eauto 6);
    try (destruct (Hunits Hin) as [Hw|Hlog]; now eauto 6).
Qed.

Lemma queryTables_run (host : Host) (db : Database) (tables : list TableInfo)
    (interfaces : JsMap.t) :
  queryTables host db tables interfaces =
    if forallb (fun table => canQuery host (tname table)) tables
    then ([], Some (fold_left
                      (fun interfaces table =>
                         JsMap.set interfaces (tname table)
                           (interfaceContent (tname table) (table_info db (tname table))))
                      tables interfaces))
    else ([], None).
Proof.
  revert interfaces. induction tables as [|table tables IH]; intros interfaces;
    [reflexivity|].
  cbn [queryTables forallb fold_left].
  destruct (canQuery host (tname table)); [apply IH | reflexivity].
Qed.

Lemma runGenerateInterfaces_run (host : Host) (db : Database) :
  runGenerateInterfaces host db =
    if queryable host db then ([], Some (generateInterfaces db)) else ([], None).
Proof. unfold runGenerateInterfaces, queryable. apply queryTables_run. Qed.


Lemma generation_events (host : Host) (schemaPath outputDir : string) (e : event) :
  In e (fst (generation host schemaPath outputDir)) ->
  e = OpenSchema schemaPath \/
  (exists text, e = ConsoleLog text) \/
  (exists db, openSchema host schemaPath = Some db /\ queryable host db = true /\
     In e (fst (generateFiles host outputDir (generateInterfaces db)))).
Proof.
  unfold generation, newInterfaceGenerator, mbind, action_bind.
  destruct (openSchema host schemaPath) as [db|].
  - cbn [bind ret emit throw fst snd app]. rewrite runGenerateInterfaces_run.
    destruct (queryable host db) eqn:Hquery.
    + destruct (generateFiles host outputDir (generateInterfaces db))
        as [events [[]|]] eqn:Hfiles;
        cbn [bind ret emit throw fst snd app]; rewrite ?Hfiles;
        cbn [bind ret emit throw fst snd app]; intros Hin; split_membership;
        try (subst e; now eauto 6);
        do 2 right; exists db;
        (split; [reflexivity | split; [exact Hquery | rewrite Hfiles; exact Hin]]).
    + cbn [bind ret emit throw fst snd app]. intros Hin. split_membership;
        subst e; now eauto 6.
  - cbn [bind ret emit throw fst snd app]. intros Hin. split_membership;
      subst e; now eauto 6.
Qed.

Lemma generation_never_exits (host : Host) (schemaPath outputDir : string) :
  Forall (fun e => is_exit e = false) (fst (generation host schemaPath outputDir)).
Proof.
  apply Forall_forall. intros e Hin%list_elem_of_In.
  apply generation_events in Hin as [->|[(text & ->)|(db & _ & _ & Hin)]];
    [reflexivity..|].
  apply generateFiles_events in Hin
    as [[-> _]|[(t & c & _ & ->)|[->|(text & ->)]]]; reflexivity.
Qed.

(** The three ways [main] goes. *)
Lemma main_cases (host : Host) (argv : list string) :
  let args := parseArgs (skipn 2 argv) in
  (given (args !! "help") = true /\
   main host argv = [ConsoleLog helpText; Exit 0]) \/
  (given (args !! "help") = false /\
   (given (args !! "schema-file") = false \/ given (args !! "output-dir") = false) /\
   main host argv =
     [ConsoleError "Error: Missing required arguments."; ConsoleLog helpText; Exit 1]) \/
  (given (args !! "help") = false /\
   exists s o,
     args !! "schema-file" = Some s /\ s <> EmptyString /\
     args !! "output-dir" = Some o /\ o <> EmptyString /\
     ((snd (generation host s o) = Some tt /\
       main host argv = fst (generation host s o)) \/
      (snd (generation host s o) = None /\
       main host argv = fst (generation host s o)
         ++ [ConsoleError "Error during interface generation:"; Exit 1]))).
Proof.
  intros args. unfold main. fold args.
  destruct (given (args !! "help")); [left; now split|]. right.
  destruct (args !! "schema-file") as [[|c1 s]|] eqn:Hs;
    try (left; split; [reflexivity|]; split; [now left | reflexivity]).
  destruct (args !! "output-dir") as [[|c2 o]|] eqn:Ho;
    try (left; split; [reflexivity|]; split; [now right | reflexivity]).
  right. split; [reflexivity|].
  exists (String c1 s), (String c2 o).
  split; [reflexivity|]. split; [discriminate|].
  split; [reflexivity|]. split; [discriminate|].
  cbn [given negb orb from_option id].
  destruct (generation host (String c1 s) (String c2 o)) as [events [[]|]];
    [left | right]; split; reflexivity.
Qed.



Lemma generation_done (host : Host) (s o : string) :
  snd (generation host s o) = Some tt ->
  exists before,
    fst (generation host s o)
      = before ++ [ConsoleLog "Interface generation completed successfully."].
Proof.
  unfold generation, newInterfaceGenerator, mbind, action_bind.
  destruct (openSchema host s) as [db|]; [|discriminate].
  cbn [bind ret emit throw fst snd app]. rewrite runGenerateInterfaces_run.
  destruct (queryable host db); [|discriminate].
  destruct (generateFiles host o (generateInterfaces db)) as [events [[]|]] eqn:Hfiles;
    cbn [bind ret emit throw fst snd app]; rewrite ?Hfiles;
    cbn [bind ret emit throw fst snd app]; [|discriminate].
  intros _.
  exists (ConsoleLog ("Generating interfaces from schema: " +:+ s)
            :: ConsoleLog ("Output directory: " +:+ o) :: OpenSchema s :: events).
  reflexivity.
Qed.

(** X20: how a run ends.  With [help] set, the run prints the help text and
    exits with code 0, whatever else the command line holds.  An exit is the
    last event of a run; its code is 0 under [help] and 1 otherwise.  A run
    without an exit ends with the report of success. *)
Theorem main_exit_codes (host : Host) (argv : list string) :
  let args := parseArgs (skipn 2 argv) in
  (given (args !! "help") = true ->
   main host argv = [ConsoleLog helpText; Exit 0]) /\
  (forall code, In (Exit code) (main host argv) ->
     exists before,
       main host argv = before ++ [Exit code] /\
       Forall (fun e => is_exit e = false) before /\
       ((code = 0 /\ given (args !! "help") = true) \/
        (code = 1 /\ given (args !! "help") = false))) /\
  (Forall (fun e => is_exit e = false) (main host argv) ->
   exists before,
     main host argv
       = before ++ [ConsoleLog "Interface generation completed successfully."]).
Proof.
  intros args.
  destruct (main_cases host argv)
    as [[Hhelp Hmain]|[(Hhelp & _ & Hmain)|(Hhelp & s & o & _ & _ & _ & _ & Hrun)]];
    fold args in Hhelp.
  - split; [intros _; exact Hmain|]. rewrite Hmain. split.
    + intros code Hin. split_membership; try discriminate Hin.
      injection Hin as <-. exists [ConsoleLog helpText].
      split; [reflexivity|]. split; [repeat constructor | now left].
    + intros Hnone. inversion Hnone as [|? ? _ Hrest]; subst.
      inversion Hrest as [|? ? Hexit _]; subst. discriminate Hexit.
  - split; [intros Hyes; congruence|]. rewrite Hmain. split.
    + intros code Hin. split_membership; try discriminate Hin.
      injection Hin as <-.
      exists [ConsoleError "Error: Missing required arguments."; ConsoleLog helpText].
      split; [reflexivity|]. split; [repeat constructor | now right].
    + intros Hnone. inversion Hnone as [|? ? _ Hrest]; subst.
      inversion Hrest as [|? ? _ Hrest']; subst.
      inversion Hrest' as [|? ? Hexit _]; subst. discriminate Hexit.
  - split; [intros Hyes; congruence|].
    pose proof (generation_never_exits host s o) as Hquiet.
    destruct Hrun as [[Hdone Hmain]|[Hfail Hmain]]; rewrite Hmain; split.
    + intros code Hin. rewrite Forall_forall in Hquiet.
      apply list_elem_of_In, Hquiet in Hin. discriminate Hin.
    + intros _. now apply generation_done.
    + intros code Hin. apply in_app_or in Hin as [Hin|Hin].
      * rewrite Forall_forall in Hquiet.
        apply list_elem_of_In, Hquiet in Hin. discriminate Hin.
      * split_membership; try discriminate Hin. injection Hin as <-.
        exists (fst (generation host s o)
                  ++ [ConsoleError "Error during interface generation:"]).
        split; [now rewrite <- app_assoc|].
        split; [|now right].
        apply Forall_app. split; [exact Hquiet | repeat constructor].
    + intros Hnone. apply Forall_app in Hnone as [_ Hnone].
      inversion Hnone as [|? ? _ Hrest]; subst.
      inversion Hrest as [|? ? Hexit _]; subst. discriminate Hexit.
Qed.

Lemma main_exit_codes_witness :
  let argv := ["bun"; "gen"; "--schema-file"; "nope.sql"; "--help"] in
  given (parseArgs (skipn 2 argv) !! "help") = true /\
  main sample_host argv = [ConsoleLog helpText; Exit 0].
Proof.
  intros argv.
  assert (Hhelp : given (parseArgs (skipn 2 argv) !! "help") = true) by reflexivity.
  split; [exact Hhelp|].
  exact (proj1 (main_exit_codes sample_host argv) Hhelp).
Defined.





Lemma unit_is_no_manifest (T : string) (columns : list ColumnInfo) (m : JsMap.t) :
  interfaceContent T columns <> indexContent m.
Proof.
  apply (startsWith_differ "import").
  - unfold interfaceContent. rewrite fold_left_append. reflexivity.
  - unfold indexContent, JsMap.keys. destruct m as [|[k v] [|[k' v'] m]]; reflexivity.
Qed.



